(** * Matching worker: relaxation policy, compatibility check, sweep and
    timeout pass of [backend/matching-service/workers/matchWorker.ts].

    The worker's functions are embedded as Rocq functions.  Redis, MongoDB,
    socket.io and the console are one explicit [World] record threaded
    through a state-and-exception monad; JavaScript numbers that hold
    timestamps and relaxation levels are [Z]; a field of a Redis hash is a
    string or [undefined].  What the environment decides is given by
    functions of the call: which awaited calls reject, and what [Date.now()]
    returns each time it is read. *)

From Stdlib Require Import ZArith.
From stdpp Require Import base gmap sets list strings sorting.

Open Scope Z_scope.

(** ** JavaScript values of the attribute record *)

(** A field read from a hash: a string, or [undefined] ([None]) when the
    field is missing. *)
Definition field : Type := option string.

(** JavaScript truthiness of such a field: [undefined] and the empty string
    are falsy. *)
Definition truthy (v : field) : bool :=
  match v with
  | Some EmptyString => false
  | Some _ => true
  | None => false
  end.

(** [a || b] on fields. *)
Definition js_or (a b : field) : field := if truthy a then a else b.

(** [a === b] on fields. *)
Definition strict_eq (a b : field) : bool := bool_decide (a = b).

Definition Any : field := Some "Any"%string.

(** The [userData] object: the hash stored under a user key.  [requestedAt]
    is the number [parseInt(userData.requestedAt)]. *)
Record UserData : Type := mkUserData {
  userId : field;
  socketId : field;
  category : field;
  difficulty : field;
  requestedAt : Z
}.

(** The object [{ category, difficulty }] returned by [getRelaxedCriteria]. *)
Record Criteria : Type := mkCriteria {
  crit_category : field;
  crit_difficulty : field
}.

(** The three settings read from the environment. *)
Record Config : Type := mkConfig {
  MATCHING_INTERVAL : Z;
  RELAXATION_INTERVAL : Z;
  MATCH_TIMEOUT : Z
}.

Definition default_config : Config :=
  {| MATCHING_INTERVAL := 3000; RELAXATION_INTERVAL := 10000; MATCH_TIMEOUT := 30000 |}.

(** ** Relaxation policy *)

(** The branch of [getRelaxationLevel] on the elapsed time. *)
Definition level_of_elapsed (cfg : Config) (elapsedTime : Z) : Z :=
  if elapsedTime <=? RELAXATION_INTERVAL cfg then 0
  else if elapsedTime <=? RELAXATION_INTERVAL cfg * 2 then 1
  else 2.

(** [getRelaxationLevel(userData)]; [now] is the reading of [Date.now()]. *)
Definition getRelaxationLevel (cfg : Config) (now : Z) (userData : UserData) : Z :=
  let elapsedTime := now - requestedAt userData in
  level_of_elapsed cfg elapsedTime.

Definition getRelaxedCriteria (relaxationLevel : Z) (userData : UserData) : Criteria :=
  match relaxationLevel with
  | 0 => {| crit_category := category userData; crit_difficulty := difficulty userData |}
  | 1 => {| crit_category := category userData; crit_difficulty := Any |}
  | 2 => {| crit_category := Any; crit_difficulty := difficulty userData |}
  | _ => {| crit_category := category userData; crit_difficulty := difficulty userData |}
  end.

(** ** Compatibility evaluator *)

Definition isCriteriaSatisfied (user : UserData) (relaxedCriteria : Criteria) : bool :=
  let categoryMatch :=
    strict_eq (crit_category relaxedCriteria) Any
    || strict_eq (category user) (crit_category relaxedCriteria) in
  let difficultyMatch :=
    strict_eq (crit_difficulty relaxedCriteria) Any
    || strict_eq (difficulty user) (crit_difficulty relaxedCriteria) in
  categoryMatch && difficultyMatch.

(** The values taken by [i] in [for (let i = 0; i <= relaxationLevel; i++)]. *)
Definition sub_levels (relaxationLevel : Z) : list Z := seqZ 0 (relaxationLevel + 1).

(** First loop of [canUsersMatch]: user1's criteria at every sub-level,
    tested against user2; [satisfied] is the flag on entry. *)
Definition first_loop (user1 user2 : UserData) (relaxationLevel1 : Z) (satisfied : bool) : bool :=
  foldl (fun satisfied i =>
           let relaxedCriteria1 := getRelaxedCriteria i user1 in
           satisfied || isCriteriaSatisfied user2 relaxedCriteria1)
        satisfied (sub_levels relaxationLevel1).

(** Second loop: the body reads [relaxationLevel2], not [i]. *)
Definition second_loop (user1 user2 : UserData) (relaxationLevel2 : Z) (satisfied : bool) : bool :=
  foldl (fun satisfied (i : Z) =>
           let relaxedCriteria2 := getRelaxedCriteria relaxationLevel2 user2 in
           satisfied || isCriteriaSatisfied user1 relaxedCriteria2)
        satisfied (sub_levels relaxationLevel2).

Definition out_of_range (relaxationLevel : Z) : bool :=
  (relaxationLevel <? 0) || (relaxationLevel >? 2).

Definition canUsersMatch (user1 user2 : UserData) (relaxationLevel1 relaxationLevel2 : Z) : bool :=
  let satisfied := false in
  if out_of_range relaxationLevel1 then false
  else
    let satisfied := first_loop user1 user2 relaxationLevel1 satisfied in
    if out_of_range relaxationLevel2 then false
    else
      let satisfied := second_loop user1 user2 relaxationLevel2 satisfied in
      satisfied.

(** The same function instrumented with the list of levels it passes to
    [getRelaxedCriteria], in call order. *)
Definition first_loop_calls (relaxationLevel1 : Z) : list Z := sub_levels relaxationLevel1.

Definition second_loop_calls (relaxationLevel2 : Z) : list Z :=
  (fun _ : Z => relaxationLevel2) <$> sub_levels relaxationLevel2.

Definition canUsersMatch_traced (user1 user2 : UserData) (relaxationLevel1 relaxationLevel2 : Z)
  : bool * list Z :=
  let satisfied := false in
  if out_of_range relaxationLevel1 then (false, [])
  else
    let satisfied := first_loop user1 user2 relaxationLevel1 satisfied in
    let calls := first_loop_calls relaxationLevel1 in
    if out_of_range relaxationLevel2 then (false, calls)
    else
      let satisfied := second_loop user1 user2 relaxationLevel2 satisfied in
      (satisfied, calls ++ second_loop_calls relaxationLevel2).

(** The two directions as the specification words them. *)
Definition direction_AB (entryA entryB : UserData) (levelA : Z) : bool :=
  existsb (fun i => isCriteriaSatisfied entryB (getRelaxedCriteria i entryA)) (sub_levels levelA).

Definition direction_BA (entryA entryB : UserData) (levelB : Z) : bool :=
  isCriteriaSatisfied entryA (getRelaxedCriteria levelB entryB).

(** The second direction as it would be if it were swept like the first. *)
Definition direction_BA_swept (entryA entryB : UserData) (levelB : Z) : bool :=
  existsb (fun i => isCriteriaSatisfied entryA (getRelaxedCriteria i entryB)) (sub_levels levelB).

(** ** The world the worker acts on *)

(** A socket.io socket, as far as the worker reads it. *)
Record Socket : Type := mkSocket { connected : bool }.

(** [SOCKET_EVENTS]: the event names sent to clients. *)
Inductive SocketEvent : Type := MATCH_FOUND | MATCH_FAILED.

(** One [socket.emit(event, { message })], with the id of the socket. *)
Record Emit : Type := mkEmit {
  emit_to : string;
  emit_event : SocketEvent;
  emit_message : string
}.

(** Document of the [MatchingEvent] collection. *)
Record MatchingEventDoc : Type := mkMatchingEventDoc {
  event_category : field;
  event_difficulty : field
}.

(** Document of the [Room] collection. *)
Record RoomDoc : Type := mkRoomDoc {
  participants : list field;
  room_category : field;
  room_difficulty : field
}.

(** The object serialised by [JSON.stringify] into [matchMessage.user1] and
    [matchMessage.user2]. *)
Record UserSummary : Type := mkUserSummary {
  summary_userId : field;
  summary_socketId : field;
  summary_category : field;
  summary_difficulty : field
}.

(** The object [matchMessage] appended to the [match_events] stream.  A
    document id ([_id]) is the position at which the document was saved in
    its collection. *)
Record MatchMessage : Type := mkMatchMessage {
  user1 : UserSummary;
  user2 : UserSummary;
  roomId : nat;
  matchId : nat
}.

(** The id argument of [xAdd]: ['*'] asks the server for an id, anything
    else is the id the caller chooses. *)
Inductive IdArgument : Type :=
  | Star
  | Id (id : nat).

(** The id under which an entry sits in a stream: generated by the server,
    from the sequence number of the entry, or chosen by the caller. *)
Inductive StreamId : Type :=
  | Generated (sequence : nat)
  | Chosen (id : nat).

(** An entry of the [match_events] stream. *)
Record StreamEntry : Type := mkStreamEntry {
  stream_id : StreamId;
  stream_message : MatchMessage
}.

(** The awaited calls of [handleMatch] that can reject. *)
Inductive Step : Type :=
  | LogQueuesBefore | XRangeBefore | SaveMatchingEvent | SaveRoom | XAdd
  | LogQueuesAfter | XRangeAfter | LogQueuesDetached.

Inductive Error : Type := Rejected (s : Step).

Inductive LogLine : Type :=
  | Log (text : string)
  | LogQueues (queue : list string)
  | LogMessages (messages : list StreamEntry)
  | LogMatchCreated (userKey1 : string) (userData1 : UserData)
                    (userKey2 : string) (userData2 : UserData)
  | LogError (text : string) (error : Error).

Record World : Type := mkWorld {
  matching_queue : list string;          (* members of the sorted set, in rank order *)
  hashes : gmap string UserData;         (* the hash stored under each user key *)
  match_events : list StreamEntry;       (* the stream, oldest first *)
  matchingEvents : list MatchingEventDoc;
  rooms : list RoomDoc;
  sockets : gmap string Socket;          (* io.sockets.sockets *)
  emitted : list Emit;
  console : list LogLine
}.

Definition set_matching_queue (q : list string) (w : World) : World :=
  mkWorld q (hashes w) (match_events w) (matchingEvents w) (rooms w) (sockets w) (emitted w) (console w).
Definition set_hashes (h : gmap string UserData) (w : World) : World :=
  mkWorld (matching_queue w) h (match_events w) (matchingEvents w) (rooms w) (sockets w) (emitted w) (console w).
Definition set_match_events (s : list StreamEntry) (w : World) : World :=
  mkWorld (matching_queue w) (hashes w) s (matchingEvents w) (rooms w) (sockets w) (emitted w) (console w).
Definition set_matchingEvents (d : list MatchingEventDoc) (w : World) : World :=
  mkWorld (matching_queue w) (hashes w) (match_events w) d (rooms w) (sockets w) (emitted w) (console w).
Definition set_rooms (r : list RoomDoc) (w : World) : World :=
  mkWorld (matching_queue w) (hashes w) (match_events w) (matchingEvents w) r (sockets w) (emitted w) (console w).
Definition set_emitted (e : list Emit) (w : World) : World :=
  mkWorld (matching_queue w) (hashes w) (match_events w) (matchingEvents w) (rooms w) (sockets w) e (console w).
Definition set_console (c : list LogLine) (w : World) : World :=
  mkWorld (matching_queue w) (hashes w) (match_events w) (matchingEvents w) (rooms w) (sockets w) (emitted w) c.

(** ** State and exceptions *)

Inductive outcome (A : Type) : Type :=
  | Ok (a : A)
  | Throw (error : Error).
Arguments Ok {A} a.
Arguments Throw {A} error.

(** An async computation: it changes the world and returns or throws; what
    it did before throwing stays done. *)
Definition M (A : Type) : Type := World → World * outcome A.

#[export] Instance M_ret : MRet M := λ A a w, (w, Ok a).

#[export] Instance M_bind : MBind M := λ A B f m w,
  match m w with
  | (w', Ok a) => f a w'
  | (w', Throw error) => (w', Throw error)
  end.

Definition throw {A} (error : Error) : M A := λ w, (w, Throw error).

(** [try { body } catch (error) { handler }]. *)
Definition try_catch {A} (body : M A) (handler : Error → M A) : M A := λ w,
  match body w with
  | (w', Ok a) => (w', Ok a)
  | (w', Throw error) => handler error w'
  end.

Definition gets {A} (f : World → A) : M A := λ w, (w, Ok (f w)).
Definition modify (f : World → World) : M unit := λ w, (f w, Ok tt).

(** An awaited call on a collaborator: it rejects when the fault plan says
    so, before having any effect. *)
Definition external {A} (fails : Step → bool) (s : Step) (action : M A) : M A :=
  if fails s then throw (Rejected s) else action.

(** A promise that nobody awaits: its rejection reaches no handler. *)
Definition detached (action : M unit) : M unit :=
  try_catch action (λ _, mret tt).

Definition console_log (line : LogLine) : M unit :=
  modify (λ w, set_console (console w ++ [line]) w).

Definition console_error (text : string) (error : Error) : M unit :=
  modify (λ w, set_console (console w ++ [LogError text error]) w).

(** ** The store: Redis, MongoDB, socket.io *)

(** Modelled from the spec: [listAll() → ordered sequence of keys]; the
    client wrapper [utils/redisClient] is not in the sources. *)
Definition zRange : M (list string) := gets matching_queue.

(** Modelled from the spec: [getAttributes(key) → attribute record or
    absent]; absent is the falsy result the worker filters out. *)
Definition hGetAll (userKey : string) : M (option UserData) :=
  gets (λ w, hashes w !! userKey).

(** The rank of a member in a list of members. *)
Fixpoint rank_in (userKey : string) (queue : list string) : option nat :=
  match queue with
  | [] => None
  | k :: queue' => if decide (k = userKey) then Some 0%nat else S <$> rank_in userKey queue'
  end.

(** Modelled from the spec: [rank(key) → position or absent]. *)
Definition zRank (userKey : string) : M (option nat) :=
  gets (λ w, rank_in userKey (matching_queue w)).

Definition remove_member (userKey : string) (queue : list string) : list string :=
  filter (λ k, k ≠ userKey) queue.

(** Modelled from the spec: removal of a key from the WaitQueue; removing
    an absent key changes nothing. *)
Definition zRem (userKey : string) : M unit :=
  modify (λ w, set_matching_queue (remove_member userKey (matching_queue w)) w).

(** Modelled from the spec: [deleteAttributes(key)]. *)
Definition del (userKey : string) : M unit :=
  modify (λ w, set_hashes (delete userKey (hashes w)) w).

(** Modelled from the spec: reading the first [count] entries of the
    append-only event log. *)
Definition xRange (count : nat) : M (list StreamEntry) :=
  gets (λ w, take count (match_events w)).

(** [xAdd('match_events', id, message)]: the message is appended under
    the id the caller gives, or, for ['*'], under an id the server
    generates.  The client wrapper is not in the sources; that the stream is
    append-only is taken from the spec. *)
Definition xAdd (id : IdArgument) (message : MatchMessage) : M unit :=
  modify (λ w,
    let stream_id := match id with
                     | Star => Generated (length (match_events w))
                     | Id id => Chosen id
                     end in
    set_match_events (match_events w ++ [mkStreamEntry stream_id message]) w).

(** Modelled from the spec: the helper of [utils/redisClient] that prints
    the queues is not in the sources; the specification gives it no effect
    on the queue, and it is taken to print the queue. *)
Definition logAllQueues : M unit :=
  λ w, console_log (LogQueues (matching_queue w)) w.

(** Modelled from the spec: [save(MatchRecord) → id]; the id is the
    position of the new document. *)
Definition MatchingEventModel_save (doc : MatchingEventDoc) : M nat := λ w,
  (set_matchingEvents (matchingEvents w ++ [doc]) w, Ok (length (matchingEvents w))).

(** Modelled from the spec: [allocate(participantIds, category,
    difficulty) → roomId]; the id is the position of the new document. *)
Definition Room_save (doc : RoomDoc) : M nat := λ w,
  (set_rooms (rooms w ++ [doc]) w, Ok (length (rooms w))).

(** [io.sockets.sockets.get(socketId)]; no socket has the id [undefined]. *)
Definition sockets_get (socketId : field) : M (option Socket) :=
  gets (λ w, sid ← socketId; sockets w !! sid).

(** [socket.emit(event, { message })] on the socket with id [sid]. *)
Definition socket_emit (sid : string) (event : SocketEvent) (message : string) : M unit :=
  modify (λ w, set_emitted (emitted w ++ [mkEmit sid event message]) w).

(** ** Publishing a match *)

Definition summary (user : UserData) : UserSummary :=
  {| summary_userId := userId user;
     summary_socketId := socketId user;
     summary_category := category user;
     summary_difficulty := difficulty user |}.

Section Publisher.
(** Which awaited calls of this [handleMatch] reject. *)
Variable fails : Step → bool.

Definition createRoom (user1 user2 : UserData) : M nat :=
  let newRoom :=
    {| participants := [userId user1; userId user2];
       room_category := js_or (js_or (category user1) (category user2)) Any;
       room_difficulty := js_or (js_or (difficulty user1) (difficulty user2)) Any |} in
  savedRoom ← external fails SaveRoom (Room_save newRoom);
  mret savedRoom.

(** The [try] block of [handleMatch]. *)
Definition handleMatch_try (user1 user2 : UserData) : M unit :=
  console_log (Log "Match found, match queue state before handling:");;
  external fails LogQueuesBefore logAllQueues;;
  console_log (Log "Before adding match to message queue, message queue state:");;
  messagesBefore ← external fails XRangeBefore (xRange 10);
  console_log (LogMessages messagesBefore);;
  let matchingEvent :=
    {| event_category := js_or (js_or (category user1) (category user2)) Any;
       event_difficulty := js_or (js_or (difficulty user1) (difficulty user2)) Any |} in
  savedEvent ← external fails SaveMatchingEvent (MatchingEventModel_save matchingEvent);
  roomId ← createRoom user1 user2;
  let matchMessage :=
    {| user1 := summary user1;
       user2 := summary user2;
       roomId := roomId;
       matchId := savedEvent |} in
  external fails XAdd (xAdd Star matchMessage);;
  console_log (Log "Match found, match queue after handling:");;
  external fails LogQueuesAfter logAllQueues;;
  console_log (Log "After adding match to message queue, message queue state:");;
  messagesAfter ← external fails XRangeAfter (xRange 10);
  console_log (LogMessages messagesAfter).

Definition handleMatch (user1 user2 : UserData) : M unit :=
  try_catch (handleMatch_try user1 user2)
            (λ error, console_error "Error in handleMatch:" error).
End Publisher.

(** ** One sweep *)

(** An element [{ userKey, userData }] of [validUsers]. *)
Record Entry : Type := mkEntry {
  userKey : string;
  userData : UserData
}.

(** [userKeys.map(async (userKey) => ...)] under [Promise.all]: one lookup
    per key, in order; [null] is [None]. *)
Fixpoint lookup_users (userKeys : list string) : M (list (option Entry)) :=
  match userKeys with
  | [] => mret []
  | userKey :: userKeys' =>
      userData ← hGetAll userKey;
      let user := match userData with
                  | Some userData => Some (mkEntry userKey userData)
                  | None => None
                  end in
      users ← lookup_users userKeys';
      mret (user :: users)
  end.

(** [users.filter((u) => u !== null)]. *)
Definition filter_valid (users : list (option Entry)) : list Entry := omap id users.

(** [Array.prototype.sort] with the comparator
    [a.userData.requestedAt - b.userData.requestedAt]: a stable sort, written
    as the insertion of each element before the first one that does not
    precede it. *)
Fixpoint insert_by_requestedAt (a : Entry) (sorted : list Entry) : list Entry :=
  match sorted with
  | [] => [a]
  | b :: sorted' =>
      if requestedAt (userData a) - requestedAt (userData b) <=? 0
      then a :: b :: sorted'
      else b :: insert_by_requestedAt a sorted'
  end.

Definition sort_by_requestedAt (validUsers : list Entry) : list Entry :=
  foldr insert_by_requestedAt [] validUsers.

(** A matched pair, in the order [(user1, user2)] of the scan. *)
Definition Pair : Type := Entry * Entry.

Definition pair_keys (pairs : list Pair) : list string :=
  pairs ≫= (λ p, [userKey p.1; userKey p.2]).

(** The calls of [getRelaxationLevel] in a tick.  Each of them reads
    [Date.now()] anew: one for user1 when its turn in the loop on [i]
    starts, and one for user2 each time a pair is checked in the loop on
    [j].  The members of a sorted set are distinct, so a tick makes each of
    these calls at most once. *)
Inductive ClockRead : Type :=
  | ForUser1 (userKey1 : string)
  | ForUser2 (userKey1 userKey2 : string).

Section Sweep.
Variable cfg : Config.
(** The fault plan of the [handleMatch] call made for a pair of keys. *)
Variable faults : string → string → Step → bool.
(** What [Date.now()] returns inside each call of [getRelaxationLevel]. *)
Variable clock : ClockRead → Z.
(** What [Date.now()] returns when the tick starts. *)
Variable now : Z.

(** The loop on [j]: [candidates] are the entries [validUsers[j]] still
    to visit.  It returns the claimed set and the entry it paired with
    user1, if any ([break]). *)
Fixpoint inner_loop (userKey1 : string) (userData1 : UserData) (relaxationLevel1 : Z)
         (candidates : list Entry) (matchedUsers : gset string)
  : M (gset string * option Entry) :=
  match candidates with
  | [] => mret (matchedUsers, None)
  | entry2 :: candidates' =>
      let userKey2 := userKey entry2 in
      let userData2 := userData entry2 in
      if decide (userKey2 ∈ matchedUsers)
      then inner_loop userKey1 userData1 relaxationLevel1 candidates' matchedUsers
      else
        isInQueue2 ← zRank userKey2;
        match isInQueue2 with
        | None => inner_loop userKey1 userData1 relaxationLevel1 candidates' matchedUsers
        | Some _ =>
            let relaxationLevel2 :=
              getRelaxationLevel cfg (clock (ForUser2 userKey1 userKey2)) userData2 in
            if canUsersMatch userData1 userData2 relaxationLevel1 relaxationLevel2
            then
              let matchedUsers := {[userKey2]} ∪ ({[userKey1]} ∪ matchedUsers) in
              zRem userKey1;;
              zRem userKey2;;
              console_log (LogMatchCreated userKey1 userData1 userKey2 userData2);;
              handleMatch (faults userKey1 userKey2) userData1 userData2;;
              console_log (Log "After match, match queue state:");;
              detached (external (faults userKey1 userKey2) LogQueuesDetached logAllQueues);;
              mret (matchedUsers, Some entry2)
            else inner_loop userKey1 userData1 relaxationLevel1 candidates' matchedUsers
        end
  end.

(** The loop on [i]: the head of [validUsers] is [validUsers[i]], its
    tail the entries with [j > i].  It returns the claimed set and the
    pairs made, oldest first. *)
Fixpoint outer_loop (validUsers : list Entry) (matchedUsers : gset string)
  : M (gset string * list Pair) :=
  match validUsers with
  | [] => mret (matchedUsers, [])
  | entry1 :: later =>
      let userKey1 := userKey entry1 in
      let userData1 := userData entry1 in
      if decide (userKey1 ∈ matchedUsers) then outer_loop later matchedUsers
      else
        isInQueue1 ← zRank userKey1;
        match isInQueue1 with
        | None => outer_loop later matchedUsers
        | Some _ =>
            let relaxationLevel1 :=
              getRelaxationLevel cfg (clock (ForUser1 userKey1)) userData1 in
            r ← inner_loop userKey1 userData1 relaxationLevel1 later matchedUsers;
            rest ← outer_loop later r.1;
            mret (rest.1, match r.2 with
                          | Some entry2 => (entry1, entry2) :: rest.2
                          | None => rest.2
                          end)
        end
  end.

(** ** The timeout pass *)

Fixpoint handleTimeouts (validUsers : list Entry) (currentTime : Z) : M unit :=
  match validUsers with
  | [] => mret tt
  | entry :: validUsers' =>
      let elapsedTime := currentTime - requestedAt (userData entry) in
      (if elapsedTime >=? MATCH_TIMEOUT cfg then
         let socketId := socketId (userData entry) in
         socket ← sockets_get socketId;
         match socketId, socket with
         | Some sid, Some socket =>
             if connected socket then
               socket_emit sid MATCH_FAILED "Match timed out. Please try again.";;
               console_log (Log ("Emitted MATCH_FAILED to " +:+ sid +:+ " due to timeout."));;
               zRem (userKey entry);;
               del (userKey entry);;
               console_log (Log ("Stale user " +:+ sid +:+ " has been cleaned up."))
             else mret tt
         | _, _ => mret tt
         end
       else mret tt);;
      handleTimeouts validUsers' currentTime
  end.

(** The snapshot the pairing scan and the timeout pass work on. *)
Definition snapshot : M (list Entry) :=
  userKeys ← zRange;
  users ← lookup_users userKeys;
  let validUsers := filter_valid users in
  mret (sort_by_requestedAt validUsers).

(** The callback of [setInterval]: one tick. *)
Definition tick : M unit :=
  try_catch
    (validUsers ← snapshot;
     _ ← outer_loop validUsers ∅;
     handleTimeouts validUsers now)
    (λ error, console_error "Error in matching worker:" error).
End Sweep.

(** ** Reference definitions and sample data *)

(** What a step leaves alone: the queue, the hashes, the sockets and what
    was emitted. *)
Definition frame (w w' : World) : Prop :=
  matching_queue w' = matching_queue w
  ∧ hashes w' = hashes w
  ∧ sockets w' = sockets w
  ∧ emitted w' = emitted w.

(** What the publisher writes to: the stream and the two collections. *)
Definition collections (w : World) : list StreamEntry * list MatchingEventDoc * list RoomDoc :=
  (match_events w, matchingEvents w, rooms w).

(** The stream and the collections go from [c] to [c'] through one call of
    [handleMatch] per pair, in order, each under the fault plan of its pair. *)
Fixpoint published_by (faults : string → string → Step → bool) (pairs : list Pair)
         (c c' : list StreamEntry * list MatchingEventDoc * list RoomDoc) : Prop :=
  match pairs with
  | [] => c' = c
  | p :: pairs =>
      ∃ wa wb,
        collections wa = c
        ∧ handleMatch (faults (userKey p.1) (userKey p.2))
            (userData p.1) (userData p.2) wa = (wb, Ok tt)
        ∧ published_by faults pairs (collections wb) c'
  end.

(** The first of the awaited calls of [handleMatch] that rejects. *)
Definition first_failure (fails : Step → bool) : option Step :=
  List.find fails
    [LogQueuesBefore; XRangeBefore; SaveMatchingEvent; SaveRoom; XAdd;
     LogQueuesAfter; XRangeAfter].

Section Reference.
Variable cfg : Config.
Variable clock : ClockRead → Z.

(** [canMatch(entry_i, entry_j)] of the specification, each level taken at
    the time the scan reads it: that of [entry_i] when its turn starts, that
    of [entry_j] when the pair is checked. *)
Definition canMatch (entry_i entry_j : Entry) : bool :=
  canUsersMatch (userData entry_i) (userData entry_j)
    (getRelaxationLevel cfg (clock (ForUser1 (userKey entry_i))) (userData entry_i))
    (getRelaxationLevel cfg (clock (ForUser2 (userKey entry_i) (userKey entry_j)))
       (userData entry_j)).

(** An entry is a partner for [entry_i] when it is unclaimed, still in
    the queue and compatible. *)
Definition partner (queue : list string) (claimed : gset string)
           (entry_i entry_j : Entry) : bool :=
  bool_decide (userKey entry_j ∉ claimed)
  && bool_decide (userKey entry_j ∈ queue)
  && canMatch entry_i entry_j.

(** Greedy earliest-first, first-fit pairing as the specification words
    it: each unclaimed entry still in the queue, in snapshot order, takes
    the first partner after it; both leave the queue. *)
Fixpoint first_fit_pairs (queue : list string) (claimed : gset string)
         (snapshot : list Entry) : list Pair :=
  match snapshot with
  | [] => []
  | entry_i :: later =>
      if bool_decide (userKey entry_i ∉ claimed) && bool_decide (userKey entry_i ∈ queue)
      then
        match List.find (partner queue claimed entry_i) later with
        | Some entry_j =>
            (entry_i, entry_j)
              :: first_fit_pairs
                   (remove_member (userKey entry_j) (remove_member (userKey entry_i) queue))
                   ({[userKey entry_j]} ∪ ({[userKey entry_i]} ∪ claimed))
                   later
        | None => first_fit_pairs queue claimed later
        end
      else first_fit_pairs queue claimed later
  end.
End Reference.

Definition by_requestedAt (a b : Entry) : Prop :=
  requestedAt (userData a) ≤ requestedAt (userData b).

Definition timed_out (cfg : Config) (currentTime : Z) (entry : Entry) : bool :=
  currentTime - requestedAt (userData entry) >=? MATCH_TIMEOUT cfg.

(** The owner's socket is registered and connected. *)
Definition reachable (socks : gmap string Socket) (entry : Entry) : bool :=
  match socketId (userData entry) with
  | Some sid =>
      match socks !! sid with
      | Some socket => connected socket
      | None => false
      end
  | None => false
  end.

Definition evictable (cfg : Config) (currentTime : Z) (socks : gmap string Socket)
           (entry : Entry) : bool :=
  timed_out cfg currentTime entry && reachable socks entry.

(** The snapshot entries the pass evicts, in snapshot order. *)
Definition evicted (cfg : Config) (currentTime : Z) (socks : gmap string Socket)
           (validUsers : list Entry) : list Entry :=
  filter (λ entry, evictable cfg currentTime socks entry = true) validUsers.

(** The failure notification sent to the owner of an entry. *)
Definition failure_notice (entry : Entry) : option Emit :=
  sid ← socketId (userData entry);
  Some (mkEmit sid MATCH_FAILED "Match timed out. Please try again.").

(** Sample users and worlds. *)
Definition entry_math_hard : UserData :=
  mkUserData (Some "a"%string) (Some "sa"%string) (Some "Math"%string) (Some "Hard"%string) 0.
Definition entry_math_easy : UserData :=
  mkUserData (Some "b"%string) (Some "sb"%string) (Some "Math"%string) (Some "Easy"%string) 0.
Definition user_x : UserData :=
  mkUserData (Some "ux"%string) (Some "sx"%string) (Some "Math"%string) (Some "Easy"%string) 0.
Definition user_y : UserData :=
  mkUserData (Some "uy"%string) (Some "sy"%string) (Some "Math"%string) (Some "Easy"%string) 1000.
Definition user_z : UserData :=
  mkUserData (Some "uz"%string) (Some "sz"%string) (Some "Art"%string) (Some "Hard"%string) 0.
Definition user_v : UserData :=
  mkUserData (Some "uv"%string) (Some "sv"%string) (Some "Art"%string) (Some "Easy"%string) 0.

(** Two compatible users and one whose record is gone. *)
Definition world_xy : World :=
  mkWorld ["user:y"; "user:gone"; "user:x"]%string
          (<["user:x"%string := user_x]> (<["user:y"%string := user_y]> ∅))
          [] [] [] (<["sx"%string := mkSocket true]> ∅) [] [].

(** Two users past the timeout: the socket of [user_z] is not registered,
    that of [user_v] is registered and disconnected. *)
Definition world_stale : World :=
  mkWorld ["user:z"; "user:v"]%string
          (<["user:z"%string := user_z]> (<["user:v"%string := user_v]> ∅))
          [] [] [] (<["sv"%string := mkSocket false]> ∅) [] [].

Definition no_faults : string → string → Step → bool := λ _ _ _, false.

Definition four_entries : list Entry :=
  [mkEntry "user:x" user_x; mkEntry "user:z" user_z;
   mkEntry "user:y" user_y; mkEntry "user:v" user_v]%string.

Definition world_four : World :=
  mkWorld ["user:x"; "user:z"; "user:y"; "user:v"]%string ∅ [] [] [] ∅ [] [].

Definition room_allocation_fails : Step → bool :=
  λ s, match s with SaveRoom => true | _ => false end.

(** "First non-empty of the two participants' values, else wildcard". *)
Definition first_non_empty (a b : field) : field :=
  if truthy a then a else if truthy b then b else Some "Any"%string.

(** The match record, the room and the event of a pair, as the
    specification describes them. *)
Definition record_of (p : Pair) : MatchingEventDoc :=
  mkMatchingEventDoc
    (first_non_empty (category (userData p.1)) (category (userData p.2)))
    (first_non_empty (difficulty (userData p.1)) (difficulty (userData p.2))).

Definition room_of (p : Pair) : RoomDoc :=
  mkRoomDoc
    [userId (userData p.1); userId (userData p.2)]
    (first_non_empty (category (userData p.1)) (category (userData p.2)))
    (first_non_empty (difficulty (userData p.1)) (difficulty (userData p.2))).

Definition message_of (p : Pair) (record_id room_id : nat) : MatchMessage :=
  mkMatchMessage
    (mkUserSummary (userId (userData p.1)) (socketId (userData p.1))
                   (category (userData p.1)) (difficulty (userData p.1)))
    (mkUserSummary (userId (userData p.2)) (socketId (userData p.2))
                   (category (userData p.2)) (difficulty (userData p.2)))
    room_id record_id.

(** The stream entry of a pair: the message under the id the server
    generates for the entry number [sequence]. *)
Definition event_of (p : Pair) (sequence record_id room_id : nat) : StreamEntry :=
  mkStreamEntry (Generated sequence) (message_of p record_id room_id).

(** The events of a list of pairs when the first event, the first record
    and the first room get the numbers [sequence], [record_id] and
    [room_id]. *)
Fixpoint events_of (pairs : list Pair) (sequence record_id room_id : nat) : list StreamEntry :=
  match pairs with
  | [] => []
  | p :: pairs =>
      event_of p sequence record_id room_id
        :: events_of pairs (S sequence) (S record_id) (S room_id)
  end.

(** None of the awaited calls of [handleMatch] up to the append to the
    stream rejects. *)
Definition reaches_the_append (fails : Step → bool) : bool :=
  negb (existsb fails [LogQueuesBefore; XRangeBefore; SaveMatchingEvent; SaveRoom; XAdd]).

(** A reading of the clock that does not change. *)
Definition frozen (now : Z) : ClockRead → Z := λ _, now.

(** A store that already holds two match records and an empty stream. *)
Definition world_two_records : World :=
  mkWorld [] ∅ [] [mkMatchingEventDoc Any Any; mkMatchingEventDoc Any Any] [] ∅ [] [].

(** Two users waiting since 80000 who are compatible at 100000, when both
    are at level 1, and at 100001, when both are at level 2, and a clock
    that passes from 100000 to 100001 between the reading for the first and
    the reading for the second. *)
Definition user_m : UserData :=
  mkUserData (Some "um"%string) (Some "sm"%string) (Some "Math"%string) (Some "Any"%string)
             80000.
Definition user_e : UserData :=
  mkUserData (Some "ue"%string) (Some "se"%string) (Some "Any"%string) (Some "Easy"%string)
             80000.
Definition world_me : World :=
  mkWorld ["user:m"; "user:e"]%string
          (<["user:m"%string := user_m]> (<["user:e"%string := user_e]> ∅))
          [] [] [] ∅ [] [].
Definition advancing_clock : ClockRead → Z :=
  λ r, match r with ForUser1 _ => 100000 | ForUser2 _ _ => 100001 end.

(** A queue whose only key has no hash. *)
Definition world_ghost : World :=
  mkWorld ["user:gone"]%string ∅ [] [] [] ∅ [] [].

(** ** The question controller: choosing a question for a match *)

Module QuestionController.

Definition DIFFICULTIES : list string := ["easy"; "medium"; "hard"]%string.

(** Document of the [category] collection. *)
Record Category : Type := mkCategory {
  category_id : nat;
  name : string
}.

(** Document of the [question] collection, with the fields [createQuestion]
    gives it; [categories] holds ids of category documents. *)
Record Question : Type := mkQuestion {
  question_id : nat;
  code : Z;
  title : string;
  description : string;
  difficulty : string;
  categories : list nat;
  url : option string
}.

(** The two collections, each in its natural order. *)
Record Db : Type := mkDb {
  categoryModel : list Category;
  questionModel : list Question
}.

(** What [findSuitableQuestion] resolves to: a document, [null], or
    [undefined] after its handler has printed the error it caught. *)
Inductive Lookup : Type :=
  | Found (question : Question)
  | Null
  | Caught (message : string).

(** [categoryModel.findOne({ name: categoryName })]: the first document
    with that name. *)
Definition findCategory (db : Db) (categoryName : string) : option Category :=
  List.find (λ c, bool_decide (name c = categoryName)) (categoryModel db).

(** [questionModel.findOne({ categories: id, difficulty: d })]: the first
    document whose array of categories holds [id] and whose difficulty is
    [d]. *)
Definition findQuestion (db : Db) (id : nat) (d : string) : option Question :=
  List.find (λ q, bool_decide (id ∈ categories q) && bool_decide (difficulty q = d))
            (questionModel db).

(** [DIFFICULTIES.indexOf(difficulty)]; [None] is -1. *)
Fixpoint indexOf (d : string) (l : list string) : option nat :=
  match l with
  | [] => None
  | x :: l' => if decide (x = d) then Some 0%nat else S <$> indexOf d l'
  end.

(** [for (let i = difficultyIndex - 1; i >= 0; i--)] visits these. *)
Definition lower_difficulties (difficultyIndex : nat) : list string :=
  reverse (take difficultyIndex DIFFICULTIES).

(** [for (let i = difficultyIndex + 1; i < DIFFICULTIES.length; i++)]
    visits these. *)
Definition higher_difficulties (difficultyIndex : nat) : list string :=
  drop (S difficultyIndex) DIFFICULTIES.

(** The awaited calls of [findSuitableQuestion] on the store. *)
Inductive Query : Type :=
  | CategoryByName (categoryName : string)
  | QuestionByDifficulty (category : nat) (difficulty : string).

Section Store.
(** The message of the error with which the store rejects a call, if it
    does (a lost connection, a value it cannot cast).  One call of
    [findSuitableQuestion] makes each query at most once. *)
Variable rejects : Query → option string.

(** An awaited call: it throws the error the store rejects with, or gives
    the answer. *)
Definition awaited {A} (query : Query) (answer : A) : string + A :=
  match rejects query with
  | Some error => inl error
  | None => inr answer
  end.

(** One of the two [for] loops: the difficulties it visits, in the order
    it visits them; it returns at the first one that has a question, and is
    left when a call rejects.  [Null] stands for a loop that ends without
    having returned. *)
Fixpoint first_available (db : Db) (id : nat) (visited : list string) : Lookup :=
  match visited with
  | [] => Null
  | d :: visited' =>
      match awaited (QuestionByDifficulty id d) (findQuestion db id d) with
      | inl error => Caught error
      | inr (Some question) => Found question
      | inr None => first_available db id visited'
      end
  end.

Definition findSuitableQuestion (db : Db) (categoryName difficulty : string) : Lookup :=
  match awaited (CategoryByName categoryName) (findCategory db categoryName) with
  | inl error => Caught error
  | inr None => Caught ("Category '" +:+ categoryName +:+ "' not found.")
  | inr (Some category) =>
      match awaited (QuestionByDifficulty (category_id category) difficulty)
                    (findQuestion db (category_id category) difficulty) with
      | inl error => Caught error
      | inr (Some question) => Found question
      | inr None =>
          match indexOf difficulty DIFFICULTIES with
          | None => Caught ("Invalid difficulty level: " +:+ difficulty)
          | Some difficultyIndex =>
              match first_available db (category_id category)
                      (lower_difficulties difficultyIndex) with
              | Found question => Found question
              | Caught error => Caught error
              | Null =>
                  first_available db (category_id category)
                    (higher_difficulties difficultyIndex)
              end
          end
      end
  end.
End Store.

(** A Kafka message: key and value are buffers or [null]. *)
Record KafkaMessage : Type := mkKafkaMessage {
  key : option string;
  value : option string
}.

(** A message handed to [producer.send] on the question topic; its value
    is the JSON text of [{ question: id }]. *)
Record Sent : Type := mkSent {
  sent_key : string;
  sent_question : nat
}.

(** How a call of [getSuitableQuestion] ends: it returns, or its promise
    rejects. *)
Inductive Ending : Type := Returned | Rejected.

(** A line of the error console: a text, alone or followed by the error
    that was caught, given by its message. *)
Inductive ErrorLine : Type :=
  | Plain (text : string)
  | WithError (text : string) (message : string).

(** What a call leaves behind: the messages produced, the lines printed on
    the error console, and how it ended. *)
Record Effect : Type := mkEffect {
  produced : list Sent;
  errors : list ErrorLine;
  ending : Ending
}.

(** The string behind [buffer?.toString()] when it is truthy: the buffer
    is there and not empty. *)
Definition truthy_text (buffer : option string) : option string :=
  match buffer with
  | Some (String c s) => Some (String c s)
  | _ => None
  end.

Section Consumer.
Variable rejects : Query → option string.
(** [JSON.parse(body)] followed by the reading of [category] and
    [difficulty], both taken to be strings; [None] when it throws. *)
Variable JSON_parse : string → option (string * string).
(** The message of the error [producer.send] rejects with, if it does. *)
Variable send_rejects : option string.

Definition getSuitableQuestion (db : Db) (message : KafkaMessage) : Effect :=
  match truthy_text (value message), truthy_text (key message) with
  | Some body, Some matchId =>
      match JSON_parse body with
      | None => mkEffect [] [] Rejected
      | Some (category, difficulty) =>
          match findSuitableQuestion rejects db category difficulty with
          | Found question =>
              match send_rejects with
              | None => mkEffect [mkSent matchId (question_id question)] [] Returned
              | Some error =>
                  mkEffect [] [WithError "Error finding suitable question:" error] Returned
              end
          | Null =>
              mkEffect []
                [WithError "Error finding suitable question:" "No suitable question found."]
                Returned
          | Caught error =>
              mkEffect []
                [WithError "Error finding suitable question:" error;
                 WithError "Error finding suitable question:" "No suitable question found."]
                Returned
          end
      end
  | _, _ => mkEffect [] [Plain "No message body or Match ID found."] Returned
  end.
End Consumer.

(** The order in which the difficulties are tried for a listed difficulty:
    itself, then the lower ones from the nearest down, then the higher ones
    from the nearest up. *)
Definition search_order (d : string) : list string :=
  if decide (d = "easy"%string) then ["easy"; "medium"; "hard"]%string
  else if decide (d = "medium"%string) then ["medium"; "easy"; "hard"]%string
  else if decide (d = "hard"%string) then ["hard"; "medium"; "easy"]%string
  else [].

(** A store that rejects no call. *)
Definition answers : Query → option string := λ _, None.

(** A store that has lost its connection when the hard questions of
    category 1 are asked for. *)
Definition fails_on_hard : Query → option string :=
  λ query, match query with
           | QuestionByDifficulty 1 "hard" => Some "connection lost"%string
           | _ => None
           end.

(** A sample store: two categories; "Arrays" has an easy and a hard
    question, "Graphs" a hard one. *)
Definition sample_db : Db :=
  mkDb [mkCategory 1 "Arrays"; mkCategory 2 "Graphs"]%string
       [mkQuestion 10 1 "Two Sum" EmptyString "easy" [1%nat] None;
        mkQuestion 11 2 "Shortest Path" EmptyString "hard" [2%nat] None;
        mkQuestion 12 3 "Rotate" EmptyString "hard" [1%nat] None]%string.

End QuestionController.

(** ** The history controller *)

Module HistoryController.

(** Document of the history collection.  [_id] is [entry_id]; the values
    the request gives for the question, the attempt times, the collaborator
    and the code are stored as they come. *)
Record HistoryEntry : Type := mkHistoryEntry {
  entry_id : nat;
  userId : string;
  roomId : string;
  question : field;
  attemptStartedAt : field;
  attemptCompletedAt : field;
  collaboratorId : field;
  attemptCode : field
}.

(** What [jwt.verify] returns: a string, or an object with or without an
    [id] key. *)
Inductive JwtPayload : Type :=
  | PayloadText (text : string)
  | PayloadObject (id : option field).

(** A thrown value: an [Error] with its message, or anything else. *)
Inductive Thrown : Type :=
  | ErrorObject (message : string)
  | OtherValue.

Definition getErrorMessage (error : Thrown) : string :=
  match error with
  | ErrorObject message => message
  | OtherValue => "An unexpected error occurred"
  end.

Definition space : Ascii.ascii := Ascii.ascii_of_nat 32.

(** The double quote, as a string. *)
Definition dquote : string := String (Ascii.ascii_of_nat 34) EmptyString.

(** [s.split(' ')]: the pieces between single spaces; never empty. *)
Fixpoint split_space (s : string) : list string :=
  match s with
  | EmptyString => [EmptyString]
  | String c s' =>
      if Ascii.eqb c space then EmptyString :: split_space s'
      else match split_space s' with
           | piece :: pieces => String c piece :: pieces
           | [] => [String c EmptyString]
           end
  end.

Definition no_space (s : string) : bool :=
  forallb (λ c, negb (Ascii.eqb c space)) (String.list_ascii_of_string s).

(** The body of a JSON answer. *)
Inductive Json : Type :=
  | JsonError (error : string)
  | JsonMessage (message : string)
  | JsonEntry (entry : HistoryEntry)
  (* the message [`${count} history entries deleted.`], and for the user
     [`${count} history entries deleted for user ${userId}.`] *)
  | JsonDeleted (count : nat) (user : option string).

Record Response : Type := mkResponse {
  status : nat;
  json : Json
}.

(** What a handler leaves: its answer and the collection. *)
Record Handled : Type := mkHandled {
  response : Response;
  store : list HistoryEntry
}.

(** The fields of [req.body] that [createOrUpdateUserHistoryEntry] reads. *)
Record UpsertBody : Type := mkUpsertBody {
  body_questionId : field;
  body_roomId : field;
  body_attemptStartedAt : field;
  body_attemptCompletedAt : field;
  body_collaboratorId : field;
  body_attemptCode : field
}.

(** An id no document of the collection has. *)
Definition fresh_id (db : list HistoryEntry) : nat :=
  S (foldr Nat.max 0%nat (entry_id <$> db)).

(** The first document that satisfies a filter, replaced by its image. *)
Fixpoint update_first (P : HistoryEntry → bool) (f : HistoryEntry → HistoryEntry)
         (db : list HistoryEntry) : list HistoryEntry :=
  match db with
  | [] => []
  | e :: db' => if P e then f e :: db' else e :: update_first P f db'
  end.

(** The first document that satisfies a filter, removed. *)
Fixpoint remove_first (P : HistoryEntry → bool) (db : list HistoryEntry)
  : list HistoryEntry :=
  match db with
  | [] => []
  | e :: db' => if P e then db' else e :: remove_first P db'
  end.

(** The user and the room of an entry. *)
Definition room_key (e : HistoryEntry) : string * string := (userId e, roomId e).

Definition owned_room (uid rid : string) (e : HistoryEntry) : bool :=
  bool_decide (userId e = uid) && bool_decide (roomId e = rid).

Definition owned_id (uid : string) (id : nat) (e : HistoryEntry) : bool :=
  bool_decide (entry_id e = id) && bool_decide (userId e = uid).

Definition owned_ids (uid : string) (ids : list nat) (e : HistoryEntry) : bool :=
  bool_decide (entry_id e ∈ ids) && bool_decide (userId e = uid).

Definition owned (uid : string) (e : HistoryEntry) : bool :=
  bool_decide (userId e = uid).

(** The awaited calls of the handlers on the collection, [save] apart. *)
Inductive DbCall : Type :=
  | FindOne (userId roomId : string)
  | FindOneAndDelete (id : nat) (userId : string)
  | DeleteManyByIds (ids : list nat) (userId : string)
  | DeleteManyByUser (userId : string).

(** What becomes of a value given where the collection expects an [_id]:
    the id it is cast to, or the error raised when it cannot be cast, with
    which the call rejects. *)
Inductive Cast : Type :=
  | ObjectId (id : nat)
  | CastError (error : Thrown).

Section Handlers.
(** [jwt.verify(token, secret)]; [None] when it throws. *)
Variable jwt_verify : string → option JwtPayload.
(** What [save()] rejects a document with, if it does (schema validation). *)
Variable save_rejects : HistoryEntry → option Thrown.
(** What the collection rejects a call with, if it does (a lost
    connection, a filter it cannot cast). *)
Variable db_rejects : DbCall → option Thrown.
(** The cast of a request value to an [_id]. *)
Variable castObjectId : string → Cast.

(** The [catch] of every handler. *)
Definition failed (error : Thrown) (db : list HistoryEntry) : Handled :=
  mkHandled (mkResponse 500 (JsonError (getErrorMessage error))) db.

(** The casts of the elements of [ids], in order, up to the first that
    fails. *)
Fixpoint cast_all (ids : list string) : Thrown + list nat :=
  match ids with
  | [] => inr []
  | id :: ids' =>
      match castObjectId id with
      | CastError error => inl error
      | ObjectId id' =>
          match cast_all ids' with
          | inl error => inl error
          | inr ids'' => inr (id' :: ids'')
          end
      end
  end.

(** [req.headers.authorization] is a string or [undefined]. *)
Definition extractUserIdFromToken (authorization : field) : field :=
  match authorization with
  | Some authHeader =>
      if truthy authorization then
        let token := split_space authHeader !! 1%nat in
        if truthy token then
          match token with
          | Some token' =>
              match jwt_verify token' with
              | Some (PayloadObject (Some id)) => id
              | Some _ => None
              | None => None
              end
          | None => None
          end
        else None
      else None
  | None => None
  end.

Definition unauthorized (db : list HistoryEntry) : Handled :=
  mkHandled (mkResponse 401 (JsonError "Invalid or missing token")) db.

Definition createOrUpdateUserHistoryEntry (db : list HistoryEntry)
           (authorization : field) (body : UpsertBody) : Handled :=
  match extractUserIdFromToken authorization with
  | Some uid =>
      if truthy (Some uid) then
        match body_roomId body with
        | Some rid =>
            if truthy (Some rid) then
              match db_rejects (FindOne uid rid) with
              | Some error => failed error db
              | None =>
                  match List.find (owned_room uid rid) db with
                  | Some existingEntry =>
                      let updatedEntry :=
                        {| entry_id := entry_id existingEntry;
                           userId := userId existingEntry;
                           roomId := roomId existingEntry;
                           question := body_questionId body;
                           attemptStartedAt := body_attemptStartedAt body;
                           attemptCompletedAt := body_attemptCompletedAt body;
                           collaboratorId := body_collaboratorId body;
                           attemptCode := body_attemptCode body |} in
                      match save_rejects updatedEntry with
                      | Some error => failed error db
                      | None =>
                          mkHandled (mkResponse 200 (JsonEntry updatedEntry))
                                    (update_first (owned_room uid rid) (λ _, updatedEntry) db)
                      end
                  | None =>
                      let newHistoryEntry :=
                        {| entry_id := fresh_id db;
                           userId := uid;
                           roomId := rid;
                           question := body_questionId body;
                           attemptStartedAt := body_attemptStartedAt body;
                           attemptCompletedAt := body_attemptCompletedAt body;
                           collaboratorId := body_collaboratorId body;
                           attemptCode := body_attemptCode body |} in
                      match save_rejects newHistoryEntry with
                      | Some error => failed error db
                      | None =>
                          mkHandled (mkResponse 201 (JsonEntry newHistoryEntry))
                                    (db ++ [newHistoryEntry])
                      end
                  end
              end
            else mkHandled (mkResponse 400 (JsonError "roomId is required")) db
        | None => mkHandled (mkResponse 400 (JsonError "roomId is required")) db
        end
      else unauthorized db
  | None => unauthorized db
  end.

(** [id] is [req.params.id], a piece of the URL. *)
Definition deleteUserHistoryEntry (db : list HistoryEntry)
           (authorization : field) (id : string) : Handled :=
  match extractUserIdFromToken authorization with
  | Some uid =>
      if truthy (Some uid) then
        match castObjectId id with
        | CastError error => failed error db
        | ObjectId id' =>
            match db_rejects (FindOneAndDelete id' uid) with
            | Some error => failed error db
            | None =>
                match List.find (owned_id uid id') db with
                | Some deletedEntry =>
                    mkHandled
                      (mkResponse 200 (JsonMessage "History entry deleted successfully"))
                      (remove_first (owned_id uid id') db)
                | None =>
                    mkHandled (mkResponse 404 (JsonMessage "History entry not found")) db
                end
            end
        end
      else unauthorized db
  | None => unauthorized db
  end.

(** [ids] is [None] when [req.body.ids] is not an array; the elements of
    the array are taken by their text. *)
Definition deleteUserHistoryEntries (db : list HistoryEntry)
           (authorization : field) (ids : option (list string)) : Handled :=
  match extractUserIdFromToken authorization with
  | Some uid =>
      if truthy (Some uid) then
        match ids with
        | Some ids' =>
            match cast_all ids' with
            | inl error => failed error db
            | inr ids'' =>
                match db_rejects (DeleteManyByIds ids'' uid) with
                | Some error => failed error db
                | None =>
                    let deletedCount := length (List.filter (owned_ids uid ids'') db) in
                    mkHandled (mkResponse 200 (JsonDeleted deletedCount None))
                              (List.filter (λ e, negb (owned_ids uid ids'' e)) db)
                end
            end
        | None =>
            mkHandled
              (mkResponse 400
                 (JsonMessage (dquote +:+ "ids" +:+ dquote
                               +:+ " must be an array of history entry IDs.")))
              db
        end
      else unauthorized db
  | None => unauthorized db
  end.

Definition deleteAllUserHistoryEntries (db : list HistoryEntry)
           (authorization : field) : Handled :=
  match extractUserIdFromToken authorization with
  | Some uid =>
      if truthy (Some uid) then
        match db_rejects (DeleteManyByUser uid) with
        | Some error => failed error db
        | None =>
            let deletedCount := length (List.filter (owned uid) db) in
            mkHandled (mkResponse 200 (JsonDeleted deletedCount (Some uid)))
                      (List.filter (λ e, negb (owned uid e)) db)
        end
      else unauthorized db
  | None => unauthorized db
  end.
End Handlers.

(** Sample data: a verifier that accepts the token "t-ann" for the user
    "ann" and "t-bob" for "bob", and a collection with one entry each. *)
Definition sample_verify (token : string) : option JwtPayload :=
  if decide (token = "t-ann"%string) then Some (PayloadObject (Some (Some "ann"%string)))
  else if decide (token = "t-bob"%string) then Some (PayloadObject (Some (Some "bob"%string)))
  else None.

Definition accept_all : HistoryEntry → option Thrown := λ _, None.

(** A collection that rejects no call, and a cast that accepts the decimal
    digits "1" and "2" only. *)
Definition answers_all : DbCall → option Thrown := λ _, None.

Definition sample_cast (id : string) : Cast :=
  if decide (id = "1"%string) then ObjectId 1
  else if decide (id = "2"%string) then ObjectId 2
  else CastError (ErrorObject "Cast to ObjectId failed").

Definition sample_history : list HistoryEntry :=
  [mkHistoryEntry 1 "ann" "room-1" (Some "q1") None None (Some "bob") None;
   mkHistoryEntry 2 "bob" "room-1" (Some "q1") None None (Some "ann") None]%string.

Definition sample_body : UpsertBody :=
  mkUpsertBody (Some "q2") (Some "room-1") (Some "10") (Some "20") (Some "bob")
               (Some "code")%string.

End HistoryController.

(** * Properties *)

(** ** Facts about the policy and the evaluator *)

Lemma level_of_elapsed_range cfg e :
  level_of_elapsed cfg e = 0 ∨ level_of_elapsed cfg e = 1 ∨ level_of_elapsed cfg e = 2.
Proof. unfold level_of_elapsed. repeat case_match; auto. Qed.

Lemma getRelaxationLevel_range cfg now u : 0 ≤ getRelaxationLevel cfg now u ≤ 2.
Proof.
  unfold getRelaxationLevel.
  destruct (level_of_elapsed_range cfg (now - requestedAt u)) as [-> | [-> | ->]]; lia.
Qed.

Lemma out_of_range_false l : out_of_range l = false ↔ 0 ≤ l ≤ 2.
Proof. unfold out_of_range. rewrite orb_false_iff, Z.ltb_ge, Z.gtb_ltb, Z.ltb_ge. lia. Qed.

Lemma out_of_range_true l : out_of_range l = true ↔ l < 0 ∨ 2 < l.
Proof. unfold out_of_range. rewrite orb_true_iff, Z.ltb_lt, Z.gtb_ltb, Z.ltb_lt. lia. Qed.

Lemma foldl_orb_existsb {A} (f : A → bool) (l : list A) (b : bool) :
  foldl (fun acc x => acc || f x) b l = b || existsb f l.
Proof.
  revert b. induction l as [| x l IH]; intros b; simpl.
  - by rewrite orb_false_r.
  - by rewrite IH, orb_assoc.
Qed.

Lemma first_loop_direction u1 u2 l b :
  first_loop u1 u2 l b = b || direction_AB u1 u2 l.
Proof. unfold first_loop, direction_AB. apply foldl_orb_existsb. Qed.

Lemma existsb_const {A} (b : bool) (x : A) (l : list A) :
  existsb (fun _ => b) (x :: l) = b.
Proof.
  destruct b; simpl; [done |].
  induction l as [| y l IH]; simpl; done.
Qed.

Lemma sub_levels_cons l : 0 ≤ l → sub_levels l = 0 :: seqZ 1 l.
Proof.
  intros Hl. unfold sub_levels.
  replace (l + 1) with (Z.succ l) by lia.
  rewrite seqZ_cons by lia. f_equal. f_equal. lia.
Qed.

Lemma second_loop_direction u1 u2 l b :
  0 ≤ l → second_loop u1 u2 l b = b || direction_BA u1 u2 l.
Proof.
  intros Hl. unfold second_loop, direction_BA.
  rewrite (foldl_orb_existsb (fun _ => isCriteriaSatisfied u1 (getRelaxedCriteria l u2))).
  by rewrite sub_levels_cons, existsb_const.
Qed.

Lemma canUsersMatch_directions u1 u2 l1 l2 :
  0 ≤ l1 ≤ 2 → 0 ≤ l2 ≤ 2 →
  canUsersMatch u1 u2 l1 l2 = direction_AB u1 u2 l1 || direction_BA u1 u2 l2.
Proof.
  intros H1 H2. unfold canUsersMatch.
  rewrite (proj2 (out_of_range_false l1) H1), (proj2 (out_of_range_false l2) H2).
  rewrite second_loop_direction, first_loop_direction by lia. done.
Qed.

Lemma canUsersMatch_traced_fst u1 u2 l1 l2 :
  (canUsersMatch_traced u1 u2 l1 l2).1 = canUsersMatch u1 u2 l1 l2.
Proof. unfold canUsersMatch_traced, canUsersMatch. by repeat case_match. Qed.

Lemma sub_levels_bound l i : i ∈ sub_levels l → 0 ≤ i ≤ l.
Proof. unfold sub_levels. rewrite elem_of_seqZ. lia. Qed.

Lemma direction_AB_mono u1 u2 l l' :
  l ≤ l' → direction_AB u1 u2 l = true → direction_AB u1 u2 l' = true.
Proof.
  unfold direction_AB. rewrite !existsb_exists. intros Hle (i & Hi & Hs).
  exists i. split; [| done].
  apply list_elem_of_In. apply list_elem_of_In in Hi.
  unfold sub_levels in *. rewrite elem_of_seqZ in *. lia.
Qed.

(** In the scan both levels come from [getRelaxationLevel], so neither
    guard of [canUsersMatch] fires. *)
Lemma canMatch_directions cfg clock (entry_i entry_j : Entry) :
  canMatch cfg clock entry_i entry_j
  = direction_AB (userData entry_i) (userData entry_j)
      (getRelaxationLevel cfg (clock (ForUser1 (userKey entry_i))) (userData entry_i))
    || direction_BA (userData entry_i) (userData entry_j)
         (getRelaxationLevel cfg (clock (ForUser2 (userKey entry_i) (userKey entry_j)))
            (userData entry_j)).
Proof.
  unfold canMatch. apply canUsersMatch_directions; apply getRelaxationLevel_range.
Qed.

(** Two entries with the same category and difficulty are compatible at
    any time. *)
Lemma canMatch_same_criteria cfg clock (entry_i entry_j : Entry) :
  category (userData entry_i) = category (userData entry_j) →
  difficulty (userData entry_i) = difficulty (userData entry_j) →
  canMatch cfg clock entry_i entry_j = true.
Proof.
  intros Hc Hd. rewrite canMatch_directions. apply orb_true_iff. left.
  unfold direction_AB. rewrite sub_levels_cons by apply getRelaxationLevel_range.
  simpl. apply orb_true_iff. left.
  unfold isCriteriaSatisfied, strict_eq. simpl. rewrite Hc, Hd.
  rewrite (bool_decide_eq_true_2 (category (userData entry_j) = _) eq_refl).
  rewrite (bool_decide_eq_true_2 (difficulty (userData entry_j) = _) eq_refl).
  by rewrite !orb_true_r.
Qed.

(** ** Relaxation policy *)

Lemma level_of_elapsed_cases cfg e :
  (level_of_elapsed cfg e = 0 ↔ e ≤ RELAXATION_INTERVAL cfg)
  ∧ (level_of_elapsed cfg e = 1 ↔
       RELAXATION_INTERVAL cfg < e ∧ e ≤ 2 * RELAXATION_INTERVAL cfg)
  ∧ (level_of_elapsed cfg e = 2 ↔
       ¬ e ≤ RELAXATION_INTERVAL cfg
       ∧ ¬ (RELAXATION_INTERVAL cfg < e ∧ e ≤ 2 * RELAXATION_INTERVAL cfg)).
Proof.
  unfold level_of_elapsed.
  destruct (Z.leb_spec e (RELAXATION_INTERVAL cfg));
    destruct (Z.leb_spec e (RELAXATION_INTERVAL cfg * 2)); lia.
Qed.

(** C5.  The level is 0 exactly when the elapsed time is at most
    RELAXATION_INTERVAL (so that interval itself gives 0 and one millisecond
    more gives 1), 1 exactly when it lies above the interval and at most
    twice the interval, and 2 otherwise; the relaxed criteria at level 0 are
    the entry's own, at level 1 they keep the category and take "Any" as
    difficulty, at level 2 they take "Any" as category and keep the
    difficulty. *)
Theorem relaxation_policy_reference (cfg : Config) (now elapsed : Z) (entry : UserData) :
  0 < RELAXATION_INTERVAL cfg →
  getRelaxationLevel cfg now entry = level_of_elapsed cfg (now - requestedAt entry)
  ∧ (level_of_elapsed cfg elapsed = 0 ↔ elapsed ≤ RELAXATION_INTERVAL cfg)
  ∧ (level_of_elapsed cfg elapsed = 1 ↔
       RELAXATION_INTERVAL cfg < elapsed ∧ elapsed ≤ 2 * RELAXATION_INTERVAL cfg)
  ∧ (level_of_elapsed cfg elapsed = 2 ↔
       ¬ elapsed ≤ RELAXATION_INTERVAL cfg
       ∧ ¬ (RELAXATION_INTERVAL cfg < elapsed ∧ elapsed ≤ 2 * RELAXATION_INTERVAL cfg))
  ∧ level_of_elapsed cfg (RELAXATION_INTERVAL cfg) = 0
  ∧ level_of_elapsed cfg (RELAXATION_INTERVAL cfg + 1) = 1
  ∧ getRelaxedCriteria 0 entry = mkCriteria (category entry) (difficulty entry)
  ∧ getRelaxedCriteria 1 entry = mkCriteria (category entry) (Some "Any"%string)
  ∧ getRelaxedCriteria 2 entry = mkCriteria (Some "Any"%string) (difficulty entry).
Proof.
  intros Hpos.
  destruct (level_of_elapsed_cases cfg elapsed) as (H0 & H1 & H2).
  split_and!; try done.
  - apply (level_of_elapsed_cases cfg). lia.
  - apply (level_of_elapsed_cases cfg). lia.
Qed.

Lemma relaxation_policy_reference_witness :
  0 < RELAXATION_INTERVAL default_config
  ∧ level_of_elapsed default_config 10000 = 0
  ∧ level_of_elapsed default_config 10001 = 1.
Proof.
  split; [reflexivity |].
  pose proof (relaxation_policy_reference default_config 0 0
                (mkUserData None None None None 0) eq_refl) as H.
  split; apply H.
Defined.

(** ** Compatibility evaluator *)

(** C3.  For levels in {0,1,2} the second loop of [canUsersMatch] adds to
    the flag exactly [isCriteriaSatisfied(entryA, getRelaxedCriteria(levelB,
    entryB))], the test at B's own level, and the result is the disjunction
    of that test with the first direction. *)
Theorem direction_BA_only_at_levelB (entryA entryB : UserData) (levelA levelB : Z) :
  0 ≤ levelA ≤ 2 → 0 ≤ levelB ≤ 2 →
  (∀ satisfied,
     second_loop entryA entryB levelB satisfied
     = satisfied || isCriteriaSatisfied entryA (getRelaxedCriteria levelB entryB))
  ∧ canUsersMatch entryA entryB levelA levelB
    = first_loop entryA entryB levelA false
      || isCriteriaSatisfied entryA (getRelaxedCriteria levelB entryB).
Proof.
  intros HA HB. split.
  - intros s. apply second_loop_direction. lia.
  - rewrite canUsersMatch_directions, first_loop_direction by done. done.
Qed.

Lemma direction_BA_only_at_levelB_witness :
  canUsersMatch entry_math_hard entry_math_easy 0 2 = false.
Proof.
  destruct (direction_BA_only_at_levelB entry_math_hard entry_math_easy 0 2) as [_ ->];
    [lia | lia | reflexivity].
Defined.

(** A pair on which sweeping B's sub-levels would have answered otherwise:
    B's level-1 criteria accept A, its level-2 criteria do not. *)
Example second_direction_is_not_swept :
  direction_BA_swept entry_math_hard entry_math_easy 2 = true
  ∧ direction_BA entry_math_hard entry_math_easy 2 = false
  ∧ canUsersMatch entry_math_hard entry_math_easy 0 2 = false.
Proof. by vm_compute. Qed.

(** C7.  The first direction is the disjunction of the tests at the
    sub-levels 0..L, so once it holds at level L it holds at every level
    L' with L <= L' <= 2, and so does the result of [canUsersMatch] for a
    fixed level of B. *)
Theorem direction_AB_monotone (entryA entryB : UserData) (L L' levelB : Z) :
  0 ≤ L → L ≤ L' → L' ≤ 2 →
  first_loop entryA entryB L false
  = existsb (λ i, isCriteriaSatisfied entryB (getRelaxedCriteria i entryA)) (seqZ 0 (L + 1))
  ∧ (first_loop entryA entryB L false = true → first_loop entryA entryB L' false = true)
  ∧ (canUsersMatch entryA entryB L levelB = true →
     canUsersMatch entryA entryB L' levelB = true).
Proof.
  intros H0 HL H2. split_and!.
  - by rewrite first_loop_direction.
  - rewrite !first_loop_direction. simpl. by apply direction_AB_mono.
  - unfold canUsersMatch.
    rewrite (proj2 (out_of_range_false L)), (proj2 (out_of_range_false L')) by lia.
    destruct (out_of_range levelB) eqn:EB; [done |].
    apply out_of_range_false in EB.
    rewrite !second_loop_direction, !first_loop_direction by lia. simpl.
    rewrite !orb_true_iff. intros [H | H]; [left | by right].
    by apply (direction_AB_mono _ _ L).
Qed.

Lemma direction_AB_monotone_witness :
  first_loop entry_math_hard entry_math_easy 1 false = true
  ∧ first_loop entry_math_hard entry_math_easy 2 false = true.
Proof.
  split; [reflexivity |].
  apply (direction_AB_monotone entry_math_hard entry_math_easy 1 2 0); [lia | lia | lia |].
  reflexivity.
Defined.

(** C10.  A level outside {0,1,2} makes [getRelaxedCriteria] return the
    entry's own category and difficulty, as level 0 does; [canUsersMatch]
    never passes such a level to it, and answers false when either level is
    one. *)
Theorem getRelaxedCriteria_default_unreachable
    (user1 user2 : UserData) (level1 level2 level : Z) :
  level < 0 ∨ 2 < level →
  getRelaxedCriteria level user1 = mkCriteria (category user1) (difficulty user1)
  ∧ getRelaxedCriteria level user1 = getRelaxedCriteria 0 user1
  ∧ fst (canUsersMatch_traced user1 user2 level1 level2)
    = canUsersMatch user1 user2 level1 level2
  ∧ (level ∉ snd (canUsersMatch_traced user1 user2 level1 level2))
  ∧ canUsersMatch user1 user2 level level2 = false
  ∧ canUsersMatch user1 user2 level1 level = false.
Proof.
  intros Hout. split_and!.
  - destruct level as [| p | p]; [lia | | done].
    destruct p as [[p | p |] | [p | p |] |]; try done; lia.
  - destruct level as [| p | p]; [lia | | done].
    destruct p as [[p | p |] | [p | p |] |]; try done; lia.
  - apply canUsersMatch_traced_fst.
  - unfold canUsersMatch_traced.
    destruct (out_of_range level1) eqn:E1; simpl; [set_solver |].
    apply out_of_range_false in E1.
    destruct (out_of_range level2) eqn:E2; simpl.
    + unfold first_loop_calls. intros Hin. apply sub_levels_bound in Hin. lia.
    + apply out_of_range_false in E2.
      unfold first_loop_calls, second_loop_calls.
      rewrite elem_of_app, list_elem_of_fmap.
      intros [Hin | (i & -> & _)]; [apply sub_levels_bound in Hin |]; lia.
  - unfold canUsersMatch. by rewrite (proj2 (out_of_range_true level)).
  - unfold canUsersMatch. rewrite (proj2 (out_of_range_true level)) by done.
    by destruct (out_of_range level1).
Qed.

Lemma getRelaxedCriteria_default_unreachable_witness :
  getRelaxedCriteria 3 entry_math_hard = getRelaxedCriteria 0 entry_math_hard
  ∧ canUsersMatch entry_math_hard entry_math_hard 3 0 = false.
Proof.
  pose proof (getRelaxedCriteria_default_unreachable
                entry_math_hard entry_math_hard 0 0 3) as H.
  split; apply H; right; lia.
Defined.

(** ** Running computations *)

Lemma frame_refl w : frame w w.
Proof. by repeat split. Qed.

Lemma frame_console c w : frame w (set_console c w).
Proof. by repeat split. Qed.

Lemma bind_run {A B} (m : M A) (f : A → M B) w :
  (m ≫= f) w = match m w with
               | (w', Ok a) => f a w'
               | (w', Throw error) => (w', Throw error)
               end.
Proof. reflexivity. Qed.

Lemma bind_ok {A B} (m : M A) (f : A → M B) w w' a :
  m w = (w', Ok a) → (m ≫= f) w = f a w'.
Proof. intros E. by rewrite bind_run, E. Qed.

Lemma console_log_run line w :
  console_log line w = (set_console (console w ++ [line]) w, Ok tt).
Proof. reflexivity. Qed.

Lemma detached_logAllQueues_run fails s w :
  ∃ w', detached (external fails s logAllQueues) w = (w', Ok tt)
        ∧ frame w w' ∧ collections w' = collections w.
Proof.
  unfold detached, try_catch, external.
  destruct (fails s); simpl; eexists;
    (split; [reflexivity | split; [apply frame_refl || apply frame_console | done]]).
Qed.

(** ** The publisher *)

(** Case analysis on whether the awaited call [s] rejects; [tac] closes
    the case in which it does. *)
Ltac reject_or_go fails s tac :=
  destruct (fails s) eqn:?; simpl; [tac |].

Ltac returns_normally :=
  eexists; split; [reflexivity | by repeat split].

Ltac prints_the_error :=
  intros [= <-]; eexists; split; [reflexivity | simpl; by rewrite last_snoc].

(** [handleMatch] returns normally whatever rejects inside it, and leaves
    the queue and the hashes as they are. *)
Lemma handleMatch_run fails user1 user2 w :
  ∃ w', handleMatch fails user1 user2 w = (w', Ok tt) ∧ frame w w'.
Proof.
  unfold handleMatch, try_catch, handleMatch_try, createRoom.
  rewrite !bind_run. simpl. unfold external.
  reject_or_go fails LogQueuesBefore returns_normally.
  reject_or_go fails XRangeBefore returns_normally.
  reject_or_go fails SaveMatchingEvent returns_normally.
  reject_or_go fails SaveRoom returns_normally.
  reject_or_go fails XAdd returns_normally.
  reject_or_go fails LogQueuesAfter returns_normally.
  reject_or_go fails XRangeAfter returns_normally.
  returns_normally.
Qed.

(** When a call rejects, the handler's line is the last one printed. *)
Lemma handleMatch_logs_failure fails user1 user2 w s :
  first_failure fails = Some s →
  ∃ w', handleMatch fails user1 user2 w = (w', Ok tt)
        ∧ last (console w') = Some (LogError "Error in handleMatch:" (Rejected s)).
Proof.
  unfold first_failure, handleMatch, try_catch, handleMatch_try, createRoom.
  rewrite !bind_run. simpl. unfold external.
  reject_or_go fails LogQueuesBefore prints_the_error.
  reject_or_go fails XRangeBefore prints_the_error.
  reject_or_go fails SaveMatchingEvent prints_the_error.
  reject_or_go fails SaveRoom prints_the_error.
  reject_or_go fails XAdd prints_the_error.
  reject_or_go fails LogQueuesAfter prints_the_error.
  reject_or_go fails XRangeAfter prints_the_error.
  done.
Qed.

Lemma truthy_non_empty (v : field) :
  truthy v = true ↔ ∃ s, v = Some s ∧ s ≠ EmptyString.
Proof.
  destruct v as [[| c s] |]; simpl; split; try done.
  - intros (s & [= <-] & Hs). done.
  - intros _. eexists. split; [reflexivity | done].
  - intros (s & [=] & _).
Qed.

Lemma js_or_first_non_empty (a b : field) :
  js_or (js_or a b) Any = if truthy a then a else if truthy b then b else Any.
Proof.
  unfold js_or. destruct (truthy a) eqn:Ea; [by rewrite Ea | done].
Qed.

(** ** The pairing scan *)

Lemma rank_in_None userKey queue : rank_in userKey queue = None ↔ userKey ∉ queue.
Proof.
  induction queue as [| k queue IH]; simpl.
  - split; [intros _; apply not_elem_of_nil | done].
  - case_decide as Hk.
    + subst. split; [done | intros []; apply list_elem_of_here].
    + rewrite fmap_None, IH, not_elem_of_cons. split; [intros ?; split; [congruence | done] | by intros [_ ?]].
Qed.

Lemma zRem_run userKey w :
  zRem userKey w
  = (set_matching_queue (remove_member userKey (matching_queue w)) w, Ok tt).
Proof. reflexivity. Qed.

Lemma zRank_run userKey w :
  zRank userKey w = (w, Ok (rank_in userKey (matching_queue w))).
Proof. reflexivity. Qed.

Section SweepFacts.
Variable cfg : Config.
Variable faults : string → string → Step → bool.
Variable clock : ClockRead → Z.

(** The loop on [j] stops at the first partner; without one it changes
    nothing. *)
Lemma inner_loop_run entry1 candidates matchedUsers w :
  let found := List.find (partner cfg clock (matching_queue w) matchedUsers entry1) candidates in
  ∃ w',
    inner_loop cfg faults clock (userKey entry1) (userData entry1)
      (getRelaxationLevel cfg (clock (ForUser1 (userKey entry1))) (userData entry1))
      candidates matchedUsers w
    = (w', Ok (match found with
               | Some entry2 => {[userKey entry2]} ∪ ({[userKey entry1]} ∪ matchedUsers)
               | None => matchedUsers
               end, found))
    ∧ matching_queue w'
      = match found with
        | Some entry2 =>
            remove_member (userKey entry2) (remove_member (userKey entry1) (matching_queue w))
        | None => matching_queue w
        end
    ∧ hashes w' = hashes w ∧ sockets w' = sockets w ∧ emitted w' = emitted w
    ∧ (found = None → w' = w)
    ∧ match found with
      | Some entry2 =>
          ∃ wa wb,
            collections wa = collections w
            ∧ handleMatch (faults (userKey entry1) (userKey entry2))
                (userData entry1) (userData entry2) wa = (wb, Ok tt)
            ∧ collections w' = collections wb
      | None => True
      end.
Proof.
  induction candidates as [| entry2 candidates IH]; simpl.
  - exists w. by repeat split.
  - unfold partner at 1 3 5 7 9. unfold canMatch.
    destruct (decide (userKey entry2 ∈ matchedUsers)) as [Hin | Hout].
    { rewrite bool_decide_eq_false_2 by (by intros ?). simpl. exact IH. }
    rewrite (bool_decide_eq_true_2 _ Hout). simpl.
    rewrite (bind_ok _ _ _ _ _ (zRank_run _ _)).
    destruct (rank_in (userKey entry2) (matching_queue w)) as [r |] eqn:Er.
    2:{ apply rank_in_None in Er.
        rewrite bool_decide_eq_false_2 by done. simpl. exact IH. }
    assert (userKey entry2 ∈ matching_queue w) as Hq.
    { destruct (decide (userKey entry2 ∈ matching_queue w)) as [| Hn]; [done |].
      apply rank_in_None in Hn. congruence. }
    rewrite (bool_decide_eq_true_2 _ Hq). simpl.
    destruct (canUsersMatch _ _ _ _) eqn:Ec; [| exact IH].
    rewrite (bind_ok _ _ _ _ _ (zRem_run _ _)).
    rewrite (bind_ok _ _ _ _ _ (zRem_run _ _)).
    rewrite (bind_ok _ _ _ _ _ (console_log_run _ _)).
    match goal with
    | |- context [(handleMatch ?f ?a ?b ≫= ?k) ?w0] =>
        destruct (handleMatch_run f a b w0) as (w1 & E1 & Hf1);
        rewrite (bind_ok _ k _ _ _ E1)
    end.
    rewrite (bind_ok _ _ _ _ _ (console_log_run _ _)).
    match goal with
    | |- context [(detached (external ?f ?s logAllQueues) ≫= ?k) ?w0] =>
        destruct (detached_logAllQueues_run f s w0) as (w2 & E2 & Hf2 & C2);
        rewrite (bind_ok _ k _ _ _ E2)
    end.
    clear E2.
    exists w2. split; [reflexivity |].
    destruct Hf1 as (Q1 & H1 & S1 & M1). destruct Hf2 as (Q2 & H2 & S2 & M2).
    simpl in Q1, H1, S1, M1, Q2, H2, S2, M2.
    rewrite Q2, H2, S2, M2, Q1, H1, S1, M1. split_and!; try done.
    eexists _, w1. split_and!; [| exact E1 | exact C2]. done.
Qed.

Lemma remove_member_filter (keys : list string) k1 k2 queue :
  filter (λ k, k ∉ keys) (remove_member k2 (remove_member k1 queue))
  = filter (λ k, k ∉ k1 :: k2 :: keys) queue.
Proof.
  unfold remove_member. rewrite !list_filter_filter.
  apply list_filter_iff. intros k. rewrite !not_elem_of_cons. tauto.
Qed.

Lemma filter_not_in_nil (queue : list string) :
  filter (λ k, k ∉ @nil string) queue = queue.
Proof.
  induction queue as [| k queue IH]; [done |].
  rewrite filter_cons_True by apply not_elem_of_nil. by rewrite IH.
Qed.

(** The loop on [i] computes the first-fit pairing of the reference; the
    claimed set grows by the keys of the pairs, which are exactly the keys
    that leave the queue. *)
Lemma outer_loop_run validUsers matchedUsers w :
  let pairs := first_fit_pairs cfg clock (matching_queue w) matchedUsers validUsers in
  ∃ w',
    outer_loop cfg faults clock validUsers matchedUsers w
    = (w', Ok (list_to_set (pair_keys pairs) ∪ matchedUsers, pairs))
    ∧ matching_queue w' = filter (λ k, k ∉ pair_keys pairs) (matching_queue w)
    ∧ hashes w' = hashes w ∧ sockets w' = sockets w ∧ emitted w' = emitted w
    ∧ published_by faults pairs (collections w) (collections w').
Proof.
  revert matchedUsers w.
  induction validUsers as [| entry1 later IH]; intros matchedUsers w; simpl.
  - exists w. rewrite filter_not_in_nil, union_empty_l_L. by split_and!.
  - destruct (decide (userKey entry1 ∈ matchedUsers)) as [Hin | Hout].
    { rewrite bool_decide_eq_false_2 by (by intros ?). simpl. apply IH. }
    rewrite (bool_decide_eq_true_2 _ Hout). simpl.
    rewrite (bind_ok _ _ _ _ _ (zRank_run _ _)).
    destruct (rank_in (userKey entry1) (matching_queue w)) as [r |] eqn:Er.
    2:{ apply rank_in_None in Er.
        rewrite bool_decide_eq_false_2 by done. apply IH. }
    assert (userKey entry1 ∈ matching_queue w) as Hq.
    { destruct (decide (userKey entry1 ∈ matching_queue w)) as [| Hn]; [done |].
      apply rank_in_None in Hn. congruence. }
    rewrite (bool_decide_eq_true_2 _ Hq).
    destruct (inner_loop_run entry1 later matchedUsers w)
      as (w1 & E1 & Q1 & H1 & S1 & M1 & Hsame & Hpub).
    rewrite (bind_ok _ _ _ _ _ E1). simpl.
    destruct (List.find _ later) as [entry2 |] eqn:Ef.
    + destruct (IH ({[userKey entry2]} ∪ ({[userKey entry1]} ∪ matchedUsers)) w1)
        as (w2 & E2 & Q2 & H2 & S2 & M2 & P2).
      rewrite (bind_ok _ _ _ _ _ E2). rewrite Q1 in *.
      exists w2. simpl. split_and!; try congruence.
      * unfold mret, M_ret. do 3 f_equal.
        apply set_eq. intros k. rewrite !elem_of_union. tauto.
      * rewrite Q2. apply remove_member_filter.
      * destruct Hpub as (wa & wb & Ca & Eab & Cb).
        exists wa, wb. split_and!; [done | done |]. by rewrite <- Cb.
    + rewrite (Hsame eq_refl).
      destruct (IH matchedUsers w) as (w2 & E2 & Hrest).
      rewrite (bind_ok _ _ _ _ _ E2). by exists w2.
Qed.
End SweepFacts.

(** ** The reference pairing *)

Lemma find_first {A} (f : A → bool) (l : list A) (x : A) :
  List.find f l = Some x ↔
  ∃ before after, l = before ++ x :: after ∧ f x = true ∧ Forall (λ y, f y = false) before.
Proof.
  induction l as [| y l IH]; simpl.
  - split; [done |]. intros ([| ? ?] & after & E & _); discriminate E.
  - destruct (f y) eqn:Ey.
    + split.
      * intros [= <-]. exists [], l. by repeat split.
      * intros ([| z before] & after & E & Hx & Hb); simplify_eq/=; [done |].
        apply Forall_cons in Hb as [Hz _]. congruence.
    + rewrite IH. split.
      * intros (before & after & -> & Hx & Hb).
        exists (y :: before), after. repeat split; [done |]. by constructor.
      * intros ([| z before] & after & E & Hx & Hb); simplify_eq/=; [congruence |].
        apply Forall_cons in Hb as [_ Hb]. by exists before, after.
Qed.

Lemma remove_member_subseteq k queue : remove_member k queue ⊆ queue.
Proof. intros x. unfold remove_member. rewrite list_elem_of_filter. tauto. Qed.

Lemma first_fit_pairs_keys cfg clock queue claimed snapshot :
  NoDup (userKey <$> snapshot) →
  NoDup (pair_keys (first_fit_pairs cfg clock queue claimed snapshot))
  ∧ ∀ k, k ∈ pair_keys (first_fit_pairs cfg clock queue claimed snapshot) →
         (k ∉ claimed) ∧ k ∈ userKey <$> snapshot ∧ k ∈ queue.
Proof.
  revert queue claimed.
  induction snapshot as [| entry_i later IH]; intros queue claimed Hnd; simpl.
  - split; [constructor | intros k Hk; by apply elem_of_nil in Hk].
  - rewrite fmap_cons in Hnd. apply NoDup_cons in Hnd as [Hi Hnd].
    assert (∀ q c, ∀ k, k ∈ pair_keys (first_fit_pairs cfg clock q c later) →
                        (k ∉ c) ∧ k ∈ userKey entry_i :: (userKey <$> later) ∧ k ∈ q) as Hskip.
    { intros q c k Hk. destruct (IH q c Hnd) as [_ H]. destruct (H k Hk) as (? & ? & ?).
      repeat split; [done | by apply list_elem_of_further | done]. }
    destruct (bool_decide (userKey entry_i ∉ claimed)
              && bool_decide (userKey entry_i ∈ queue)) eqn:Ei;
      [| split; [by apply IH | apply Hskip]].
    apply andb_true_iff in Ei as [Hic%bool_decide_eq_true Hiq%bool_decide_eq_true].
    destruct (List.find _ later) as [entry_j |] eqn:Ef;
      [| split; [by apply IH | apply Hskip]].
    apply find_some in Ef as [Hj Hp]. apply list_elem_of_In in Hj.
    unfold partner in Hp.
    apply andb_true_iff in Hp as [Hp _].
    apply andb_true_iff in Hp as [Hjc%bool_decide_eq_true Hjq%bool_decide_eq_true].
    assert (userKey entry_j ∈ userKey <$> later) as Hjl by (by apply list_elem_of_fmap_2).
    assert (userKey entry_i ≠ userKey entry_j) as Hij by (intros E; by rewrite E in Hi).
    destruct (IH (remove_member (userKey entry_j) (remove_member (userKey entry_i) queue))
                ({[userKey entry_j]} ∪ ({[userKey entry_i]} ∪ claimed)) Hnd) as [Hnd' Hk'].
    simpl. split.
    + apply NoDup_cons. split.
      * rewrite not_elem_of_cons. split; [done |].
        intros Hin. apply Hk' in Hin as (Hin & _). apply Hin.
        apply elem_of_union_r, elem_of_union_l. by apply elem_of_singleton.
      * apply NoDup_cons. split; [| done].
        intros Hin. apply Hk' in Hin as (Hin & _). apply Hin.
        apply elem_of_union_l. by apply elem_of_singleton.
    + intros k. rewrite !elem_of_cons. intros [-> | [-> | Hk]].
      * repeat split; [done | by left | done].
      * repeat split; [done | by right | done].
      * apply Hk' in Hk as (Hc & Hl & Hq). repeat split.
        -- intros Hkc. apply Hc. by do 2 apply elem_of_union_r.
        -- by right.
        -- by do 2 apply remove_member_subseteq in Hq.
Qed.

(** ** The snapshot *)

Lemma insert_by_requestedAt_perm a sorted :
  insert_by_requestedAt a sorted ≡ₚ a :: sorted.
Proof.
  induction sorted as [| b sorted IH]; simpl; [done |].
  case_match; [done |]. by rewrite IH, Permutation_swap.
Qed.

Lemma sort_by_requestedAt_perm validUsers :
  sort_by_requestedAt validUsers ≡ₚ validUsers.
Proof.
  induction validUsers as [| a validUsers IH]; simpl; [done |].
  by rewrite insert_by_requestedAt_perm, IH.
Qed.

Lemma insert_by_requestedAt_sorted a sorted :
  StronglySorted by_requestedAt sorted →
  StronglySorted by_requestedAt (insert_by_requestedAt a sorted).
Proof.
  induction 1 as [| b sorted Hs IH Hb]; simpl.
  - repeat constructor.
  - destruct (Z.leb_spec (requestedAt (userData a) - requestedAt (userData b)) 0) as [Hle | Hgt].
    + constructor; [by constructor |].
      constructor; [unfold by_requestedAt; lia |].
      eapply Forall_impl; [exact Hb |]. unfold by_requestedAt. intros; simpl in *; lia.
    + constructor; [done |].
      rewrite insert_by_requestedAt_perm.
      constructor; [unfold by_requestedAt; lia | done].
Qed.

Lemma sort_by_requestedAt_sorted validUsers :
  StronglySorted by_requestedAt (sort_by_requestedAt validUsers).
Proof.
  induction validUsers as [| a validUsers IH]; simpl; [constructor |].
  by apply insert_by_requestedAt_sorted.
Qed.

Lemma lookup_users_run userKeys w :
  lookup_users userKeys w
  = (w, Ok ((λ k, mkEntry k <$> hashes w !! k) <$> userKeys)).
Proof.
  induction userKeys as [| k userKeys IH]; simpl; [done |].
  unfold hGetAll, gets. rewrite bind_run. rewrite bind_run, IH.
  by destruct (hashes w !! k).
Qed.

Lemma filter_valid_elem (h : gmap string UserData) (userKeys : list string) (e : Entry) :
  e ∈ filter_valid ((λ k, mkEntry k <$> h !! k) <$> userKeys)
  ↔ userKey e ∈ userKeys ∧ h !! userKey e = Some (userData e).
Proof.
  unfold filter_valid. rewrite list_elem_of_omap. split.
  - intros (o & Ho & Ee). simpl in Ee. subst o.
    apply list_elem_of_fmap in Ho as (k & Ek & Hk).
    destruct (h !! k) as [u |] eqn:Eu; simplify_eq/=. by rewrite Eu.
  - intros [Hk Eu]. exists (Some e). split; [| done].
    apply list_elem_of_fmap. exists (userKey e). split; [| done].
    rewrite Eu. by destruct e.
Qed.

Lemma filter_valid_keys (h : gmap string UserData) (userKeys : list string) :
  userKey <$> filter_valid ((λ k, mkEntry k <$> h !! k) <$> userKeys)
  = filter (λ k, is_Some (h !! k)) userKeys.
Proof.
  unfold filter_valid.
  induction userKeys as [| k userKeys IH]; simpl; [done |].
  destruct (h !! k) as [u |] eqn:Eu; simpl.
  - rewrite filter_cons_True by (by rewrite Eu). f_equal. exact IH.
  - rewrite filter_cons_False by (rewrite Eu; by intros [? ?]). exact IH.
Qed.

Lemma snapshot_run w :
  snapshot w
  = (w, Ok (sort_by_requestedAt
              (filter_valid ((λ k, mkEntry k <$> hashes w !! k) <$> matching_queue w)))).
Proof.
  unfold snapshot, zRange, gets. rewrite bind_run. by rewrite bind_run, lookup_users_run.
Qed.

Lemma snapshot_keys_NoDup (h : gmap string UserData) (userKeys : list string) :
  NoDup userKeys →
  NoDup (userKey <$> sort_by_requestedAt
                       (filter_valid ((λ k, mkEntry k <$> h !! k) <$> userKeys))).
Proof.
  intros Hnd.
  rewrite (fmap_Permutation userKey _ _ (sort_by_requestedAt_perm _)).
  rewrite filter_valid_keys. by apply NoDup_filter.
Qed.

(** ** The timeout pass *)

Lemma remove_member_filter1 (keys : list string) k queue :
  filter (λ x, x ∉ keys) (remove_member k queue) = filter (λ x, x ∉ k :: keys) queue.
Proof.
  unfold remove_member. rewrite list_filter_filter.
  apply list_filter_iff. intros x. rewrite not_elem_of_cons. tauto.
Qed.

Lemma evicted_cons cfg currentTime socks entry validUsers :
  evicted cfg currentTime socks (entry :: validUsers)
  = if evictable cfg currentTime socks entry
    then entry :: evicted cfg currentTime socks validUsers
    else evicted cfg currentTime socks validUsers.
Proof.
  unfold evicted. destruct (evictable cfg currentTime socks entry) eqn:E.
  - by rewrite filter_cons_True.
  - rewrite filter_cons_False; [done | congruence].
Qed.

Lemma handleTimeouts_run cfg validUsers currentTime w :
  let gone := evicted cfg currentTime (sockets w) validUsers in
  ∃ w',
    handleTimeouts cfg validUsers currentTime w = (w', Ok tt)
    ∧ matching_queue w' = filter (λ k, k ∉ userKey <$> gone) (matching_queue w)
    ∧ (∀ k, hashes w' !! k
            = if decide (k ∈ userKey <$> gone) then None else hashes w !! k)
    ∧ sockets w' = sockets w
    ∧ emitted w' = emitted w ++ omap failure_notice gone.
Proof.
  revert w. induction validUsers as [| entry validUsers IH]; intros w; simpl.
  - exists w. change (evicted cfg currentTime (sockets w) []) with (@nil Entry).
    simpl. rewrite filter_not_in_nil, app_nil_r. by split_and!.
  - rewrite evicted_cons. unfold evictable, timed_out, reachable.
    rewrite bind_run.
    destruct (currentTime - requestedAt (userData entry) >=? MATCH_TIMEOUT cfg) eqn:Et; simpl;
      [| apply IH].
    unfold sockets_get, gets. rewrite bind_run. simpl.
    destruct (socketId (userData entry)) as [sid |] eqn:Es; simpl; [| apply IH].
    destruct (sockets w !! sid) as [socket |] eqn:Ek; simpl; [| apply IH].
    destruct (connected socket) eqn:Ec; simpl; [| apply IH].
    match goal with
    | |- context [handleTimeouts cfg validUsers currentTime ?w1] =>
        destruct (IH w1) as (w' & E & Q & H & S & M)
    end.
    simpl in *. exists w'. split; [exact E |].
    rewrite Q, S, M. split_and!.
    + apply remove_member_filter1.
    + intros k. rewrite H.
      change (list_fmap Entry string userKey ?l) with (userKey <$> l).
      destruct (decide (k = userKey entry)) as [-> | Hne].
      * rewrite lookup_delete_eq.
        rewrite (decide_True (P := userKey entry ∈ userKey entry :: _))
          by apply list_elem_of_here.
        by case_decide.
      * rewrite lookup_delete_ne by done.
        destruct (decide (k ∈ userKey <$> evicted cfg currentTime (sockets w) validUsers))
          as [Hk | Hk].
        -- rewrite decide_True; [done | by apply list_elem_of_further].
        -- rewrite decide_False; [done |].
           intros [? | ?]%elem_of_cons; done.
    + done.
    + unfold failure_notice at 2. rewrite Es. simpl. by rewrite <- app_assoc.
Qed.

(** ** The tick *)

(** A tick returns normally: nothing thrown inside it escapes the handlers
    of [handleMatch], and the store calls of the model do not reject.  Its
    effect on the queue, the hashes and the sockets' inbox does not depend
    on the fault plan. *)
Lemma tick_run cfg faults clock now w :
  let validUsers :=
    sort_by_requestedAt
      (filter_valid ((λ k, mkEntry k <$> hashes w !! k) <$> matching_queue w)) in
  let pairs := first_fit_pairs cfg clock (matching_queue w) ∅ validUsers in
  let gone := evicted cfg now (sockets w) validUsers in
  ∃ w',
    tick cfg faults clock now w = (w', Ok tt)
    ∧ matching_queue w'
      = filter (λ k, k ∉ userKey <$> gone)
               (filter (λ k, k ∉ pair_keys pairs) (matching_queue w))
    ∧ (∀ k, hashes w' !! k
            = if decide (k ∈ userKey <$> gone) then None else hashes w !! k)
    ∧ emitted w' = emitted w ++ omap failure_notice gone.
Proof.
  intros validUsers pairs gone. unfold tick, try_catch.
  rewrite (bind_ok _ _ _ _ _ (snapshot_run w)). fold validUsers.
  destruct (outer_loop_run cfg faults clock validUsers ∅ w)
    as (w1 & E1 & Q1 & H1 & S1 & M1 & _).
  rewrite (bind_ok _ _ _ _ _ E1).
  destruct (handleTimeouts_run cfg validUsers now w1) as (w2 & E2 & Q2 & H2 & _ & M2).
  rewrite E2. rewrite S1 in Q2, H2, M2. fold gone in Q2, H2, M2.
  exists w2. split_and!; [done | | |].
  - by rewrite Q2, Q1.
  - intros k. by rewrite H2, H1.
  - by rewrite M2, M1.
Qed.

(** ** Snapshot *)

(** C2.  Whatever keys were listed, looking them up raises nothing, and an
    entry is in the sorted snapshot exactly when its key was listed and its
    record is present in the store; a listed key without a record is not in
    the snapshot.  The snapshot of a tick is this list for the keys of the
    queue. *)
Theorem snapshot_drops_missing_records (userKeys : list string) (w : World) :
  ∃ users,
    lookup_users userKeys w = (w, Ok users)
    ∧ (∀ entry, entry ∈ sort_by_requestedAt (filter_valid users)
                ↔ userKey entry ∈ userKeys
                  ∧ hashes w !! userKey entry = Some (userData entry))
    ∧ (∀ k, hashes w !! k = None →
            k ∉ userKey <$> sort_by_requestedAt (filter_valid users))
    ∧ (userKeys = matching_queue w →
       snapshot w = (w, Ok (sort_by_requestedAt (filter_valid users)))).
Proof.
  eexists. split; [apply lookup_users_run |].
  assert (∀ entry,
            entry ∈ sort_by_requestedAt
                      (filter_valid ((λ k, mkEntry k <$> hashes w !! k) <$> userKeys))
            ↔ userKey entry ∈ userKeys ∧ hashes w !! userKey entry = Some (userData entry))
    as Hin.
  { intros entry. rewrite sort_by_requestedAt_perm. apply filter_valid_elem. }
  split_and!.
  - exact Hin.
  - intros k Hk Hkin. apply list_elem_of_fmap in Hkin as (entry & -> & He).
    apply Hin in He as [_ He]. congruence.
  - intros ->. apply snapshot_run.
Qed.

Lemma snapshot_drops_missing_records_witness :
  snapshot world_xy = (world_xy, Ok [mkEntry "user:x" user_x; mkEntry "user:y" user_y]).
Proof.
  destruct (snapshot_drops_missing_records (matching_queue world_xy) world_xy)
    as (users & Hrun & _ & _ & Hsnap).
  rewrite (Hsnap eq_refl).
  rewrite lookup_users_run in Hrun. injection Hrun as <-.
  reflexivity.
Defined.

(** ** Pairing scan *)

Lemma pair_keys_distinct (pairs : list Pair) :
  NoDup (pair_keys pairs) → ∀ p, p ∈ pairs → userKey p.1 ≠ userKey p.2.
Proof.
  induction pairs as [| q pairs IH]; intros Hnd p Hp; [by apply elem_of_nil in Hp |].
  simpl in Hnd. apply NoDup_cons in Hnd as [Hq1 Hnd].
  apply NoDup_cons in Hnd as [Hq2 Hnd].
  apply elem_of_cons in Hp as [-> | Hp]; [| by apply IH].
  intros E. apply Hq1. rewrite E. apply list_elem_of_here.
Qed.

(** C4.  The snapshot of a queue without repeated members has distinct
    keys.  Over a snapshot whose keys are distinct the scan returns
    normally; the claimed set it ends with
    is the one it started with plus the keys of the pairs it made; those
    keys were unclaimed at the start and are all different, so no key is in
    two pairs and no pair holds a key twice. *)
Theorem no_key_claimed_twice (cfg : Config) (faults : string → string → Step → bool)
    (clock : ClockRead → Z) (validUsers : list Entry) (matchedUsers : gset string)
    (w : World) :
  NoDup (userKey <$> validUsers) →
  (∀ ws, NoDup (matching_queue ws) →
         ∃ sorted, snapshot ws = (ws, Ok sorted) ∧ NoDup (userKey <$> sorted))
  ∧ ∃ w' claimed pairs,
      outer_loop cfg faults clock validUsers matchedUsers w = (w', Ok (claimed, pairs))
      ∧ claimed = list_to_set (pair_keys pairs) ∪ matchedUsers
      ∧ NoDup (pair_keys pairs)
      ∧ (∀ k, k ∈ pair_keys pairs → k ∉ matchedUsers)
      ∧ (∀ p, p ∈ pairs → userKey p.1 ≠ userKey p.2).
Proof.
  intros Hnd. split.
  { intros ws Hq. eexists. split; [apply snapshot_run |]. by apply snapshot_keys_NoDup. }
  destruct (outer_loop_run cfg faults clock validUsers matchedUsers w) as (w' & E & _).
  destruct (first_fit_pairs_keys cfg clock (matching_queue w) matchedUsers validUsers Hnd)
    as [Hkeys Hout].
  eexists w', _, _. split; [exact E |]. split_and!; [reflexivity | exact Hkeys | |].
  - intros k Hk. by apply Hout in Hk as (? & _).
  - by apply pair_keys_distinct.
Qed.

Lemma no_key_claimed_twice_witness :
  NoDup (userKey <$> four_entries)
  ∧ ∃ w' claimed pairs,
      outer_loop default_config no_faults (frozen 2000) four_entries ∅ world_four
      = (w', Ok (claimed, pairs))
      ∧ NoDup (pair_keys pairs).
Proof.
  assert (NoDup (userKey <$> four_entries)) as Hnd.
  { apply (bool_decide_unpack (NoDup (userKey <$> four_entries))). vm_compute. exact I. }
  split; [exact Hnd |].
  destruct (no_key_claimed_twice default_config no_faults (frozen 2000) four_entries ∅
              world_four Hnd)
    as (_ & w' & claimed & pairs & E & _ & Hk & _).
  by exists w', claimed, pairs.
Defined.








(** The two sample users who asked at the same time are compatible at
    100000 and at 100001, but the clock passes from the one to the other
    between the reading for the first and the reading for the second, and the
    scan leaves them unpaired: the levels it compares are 1 and 2. *)
Example levels_are_read_at_each_check :
  canUsersMatch user_m user_e (getRelaxationLevel default_config 100000 user_m)
    (getRelaxationLevel default_config 100000 user_e) = true
  ∧ canUsersMatch user_m user_e (getRelaxationLevel default_config 100001 user_m)
      (getRelaxationLevel default_config 100001 user_e) = true
  ∧ canUsersMatch user_m user_e (getRelaxationLevel default_config 100000 user_m)
      (getRelaxationLevel default_config 100001 user_e) = false
  ∧ snapshot world_me = (world_me, Ok [mkEntry "user:m" user_m; mkEntry "user:e" user_e])
  ∧ first_fit_pairs default_config advancing_clock (matching_queue world_me) ∅
      [mkEntry "user:m" user_m; mkEntry "user:e" user_e] = []
  ∧ first_fit_pairs default_config (frozen 100000) (matching_queue world_me) ∅
      [mkEntry "user:m" user_m; mkEntry "user:e" user_e]
    = [(mkEntry "user:m" user_m, mkEntry "user:e" user_e)].
Proof. by vm_compute. Qed.

(** ** Publishing *)

Lemma publish_failure_first (fails : Step → bool) :
  fails SaveMatchingEvent = true ∨ fails SaveRoom = true ∨ fails XAdd = true →
  ∃ s, first_failure fails = Some s ∧ fails s = true.
Proof.
  intros H. unfold first_failure.
  destruct (List.find fails _) as [s |] eqn:Ef.
  - exists s. split; [done |]. by apply find_some in Ef as [_ ?].
  - exfalso.
    pose proof (find_none _ _ Ef) as Hn.
    destruct H as [H | [H | H]];
      [rewrite (Hn SaveMatchingEvent) in H | rewrite (Hn SaveRoom) in H
       | rewrite (Hn XAdd) in H]; try discriminate H; simpl; tauto.
Qed.

(** C8.  When persisting the match record, allocating the room or appending
    the event rejects, [handleMatch] still returns normally, the last line
    of the console is the error it caught, and the queue and the hashes are
    as they were, the two keys still removed; the scan under any fault plan
    returns normally with the same claimed set, the same pairs and the same
    queue as the scan without faults, and no key of a pair is in the queue
    afterwards; the whole tick returns normally too, with the queue, the
    hashes and the notifications it would have without faults. *)
Theorem publish_failure_is_contained (cfg : Config)
    (faults : string → string → Step → bool) (clock : ClockRead → Z) (now : Z)
    (validUsers : list Entry) (matchedUsers : gset string) (w : World)
    (fails : Step → bool) (user1 user2 : UserData) (w0 : World) :
  fails SaveMatchingEvent = true ∨ fails SaveRoom = true ∨ fails XAdd = true →
  (∃ w1 s,
     handleMatch fails user1 user2 w0 = (w1, Ok tt)
     ∧ fails s = true
     ∧ last (console w1) = Some (LogError "Error in handleMatch:" (Rejected s))
     ∧ matching_queue w1 = matching_queue w0
     ∧ hashes w1 = hashes w0)
  ∧ (∃ w' w'' result,
       outer_loop cfg faults clock validUsers matchedUsers w = (w', Ok result)
       ∧ outer_loop cfg no_faults clock validUsers matchedUsers w = (w'', Ok result)
       ∧ matching_queue w' = matching_queue w''
       ∧ ∀ k, k ∈ pair_keys result.2 → k ∉ matching_queue w')
  ∧ (∃ wt wt',
       tick cfg faults clock now w = (wt, Ok tt)
       ∧ tick cfg no_faults clock now w = (wt', Ok tt)
       ∧ matching_queue wt = matching_queue wt'
       ∧ hashes wt = hashes wt'
       ∧ emitted wt = emitted wt').
Proof.
  intros Hfail. split_and!.
  - destruct (publish_failure_first fails Hfail) as (s & Ef & Hs).
    destruct (handleMatch_logs_failure fails user1 user2 w0 s Ef) as (w1 & E & Hlog).
    destruct (handleMatch_run fails user1 user2 w0) as (w1' & E' & Q & H & _).
    rewrite E in E'. injection E' as <-.
    by exists w1, s.
  - destruct (outer_loop_run cfg faults clock validUsers matchedUsers w) as (w' & E & Q & _).
    destruct (outer_loop_run cfg no_faults clock validUsers matchedUsers w) as (w'' & E' & Q' & _).
    eexists w', w'', _. split_and!; [exact E | exact E' | congruence |].
    simpl. intros k Hk. rewrite Q, list_elem_of_filter. tauto.
  - destruct (tick_run cfg faults clock now w) as (wt & E & Q & H & M).
    destruct (tick_run cfg no_faults clock now w) as (wt' & E' & Q' & H' & M').
    exists wt, wt'. split_and!; [exact E | exact E' | congruence | | congruence].
    apply map_eq. intros k. by rewrite H, H'.
Qed.

Lemma publish_failure_is_contained_witness :
  ∃ w1,
    handleMatch room_allocation_fails user_x user_y world_xy = (w1, Ok tt)
    ∧ matching_queue w1 = matching_queue world_xy.
Proof.
  destruct (publish_failure_is_contained default_config (λ _ _, room_allocation_fails)
              (frozen 2000) 2000 four_entries ∅ world_four room_allocation_fails user_x user_y world_xy)
    as [(w1 & s & E & _ & _ & Q & _) _].
  - right. left. reflexivity.
  - by exists w1.
Defined.

Lemma first_non_empty_truthy (a b : field) : truthy (first_non_empty a b) = true.
Proof.
  unfold first_non_empty.
  destruct (truthy a) eqn:Ea; [done |]. by destruct (truthy b) eqn:Eb.
Qed.

Lemma handleMatch_collections (fails : Step → bool) (p : Pair) (w : World) :
  ∃ w',
    handleMatch fails (userData p.1) (userData p.2) w = (w', Ok tt)
    ∧ collections w'
      = match first_failure fails with
        | Some LogQueuesBefore | Some XRangeBefore | Some SaveMatchingEvent =>
            collections w
        | Some SaveRoom =>
            (match_events w, matchingEvents w ++ [record_of p], rooms w)
        | Some XAdd =>
            (match_events w, matchingEvents w ++ [record_of p], rooms w ++ [room_of p])
        | _ =>
            (match_events w
               ++ [event_of p (length (match_events w)) (length (matchingEvents w))
                     (length (rooms w))],
             matchingEvents w ++ [record_of p],
             rooms w ++ [room_of p])
        end.
Proof.
  unfold first_failure, handleMatch, try_catch, handleMatch_try, createRoom.
  rewrite !bind_run. simpl. unfold external.
  unfold collections, event_of, message_of, record_of, room_of, first_non_empty.
  rewrite !js_or_first_non_empty.
  reject_or_go fails LogQueuesBefore ltac:(by eexists).
  reject_or_go fails XRangeBefore ltac:(by eexists).
  reject_or_go fails SaveMatchingEvent ltac:(by eexists).
  reject_or_go fails SaveRoom ltac:(by eexists).
  reject_or_go fails XAdd ltac:(by eexists).
  reject_or_go fails LogQueuesAfter ltac:(by eexists).
  reject_or_go fails XRangeAfter ltac:(by eexists).
  by eexists.
Qed.

Lemma reaches_the_append_first_failure (fails : Step → bool) :
  reaches_the_append fails = true →
  first_failure fails = None
  ∨ first_failure fails = Some LogQueuesAfter
  ∨ first_failure fails = Some XRangeAfter.
Proof.
  unfold reaches_the_append, first_failure. simpl.
  rewrite negb_true_iff, !orb_false_iff. intros (-> & -> & -> & -> & -> & _).
  destruct (fails LogQueuesAfter); [by right; left |].
  destruct (fails XRangeAfter); [by right; right | by left].
Qed.

(** When no call up to the append rejects, record, room and event are all
    stored. *)
Lemma handleMatch_reaching_run (fails : Step → bool) (p : Pair) (w : World) :
  reaches_the_append fails = true →
  ∃ w',
    handleMatch fails (userData p.1) (userData p.2) w = (w', Ok tt)
    ∧ collections w'
      = (match_events w
           ++ [event_of p (length (match_events w)) (length (matchingEvents w))
                 (length (rooms w))],
         matchingEvents w ++ [record_of p],
         rooms w ++ [room_of p]).
Proof.
  intros Hreach.
  destruct (handleMatch_collections fails p w) as (w' & E & C).
  exists w'. split; [exact E |].
  by destruct (reaches_the_append_first_failure fails Hreach) as [H | [H | H]];
    rewrite H in C.
Qed.

Lemma published_by_reaching (faults : string → string → Step → bool) (pairs : list Pair)
      (c c' : list StreamEntry * list MatchingEventDoc * list RoomDoc) :
  (∀ userKey1 userKey2, reaches_the_append (faults userKey1 userKey2) = true) →
  published_by faults pairs c c' →
  c' = (c.1.1 ++ events_of pairs (length c.1.1) (length c.1.2) (length c.2),
        c.1.2 ++ (record_of <$> pairs),
        c.2 ++ (room_of <$> pairs)).
Proof.
  intros Hreach.
  revert c. induction pairs as [| p pairs IH]; intros [[stream records] rms]; simpl.
  - intros ->. by rewrite !app_nil_r.
  - intros (wa & wb & Ca & Eab & Hrest).
    destruct (handleMatch_reaching_run _ p wa (Hreach (userKey p.1) (userKey p.2)))
      as (wb' & Eab' & Cb).
    rewrite Eab in Eab'. injection Eab' as <-.
    apply IH in Hrest. rewrite Hrest, Cb.
    unfold collections in Ca. injection Ca as -> -> ->. simpl.
    rewrite !length_app, <- !app_assoc. simpl.
    by rewrite !Nat.add_1_r.
Qed.

(** C9, as the code has it.  When none of the calls up to the append
    rejects, [handleMatch] saves one match record whose category and
    difficulty are the first non-empty of the two users' values, else "Any";
    saves one room with the two user ids and the same category and
    difficulty; and appends one entry to the stream.  The entry sits under
    the id the server generates for it, since [xAdd] is given ['*']; its
    message carries the id of the record in the field [matchId], the id of
    the room and the summaries (user id, socket id, category, difficulty) of
    both users.  A scan does so for every pair it makes, in order.  A value
    counts as non-empty when it is a string other than the empty one. *)
Theorem handleMatch_publishes (cfg : Config) (clock : ClockRead → Z)
    (validUsers : list Entry) (matchedUsers : gset string) (w0 : World)
    (faults : string → string → Step → bool) (fails : Step → bool)
    (participant1 participant2 : UserData) (w : World) :
  reaches_the_append fails = true →
  (∀ userKey1 userKey2, reaches_the_append (faults userKey1 userKey2) = true) →
  (∃ w' entry,
     handleMatch fails participant1 participant2 w = (w', Ok tt)
     ∧ matchingEvents w'
       = matchingEvents w
         ++ [mkMatchingEventDoc
               (first_non_empty (category participant1) (category participant2))
               (first_non_empty (difficulty participant1) (difficulty participant2))]
     ∧ rooms w'
       = rooms w
         ++ [mkRoomDoc [userId participant1; userId participant2]
               (first_non_empty (category participant1) (category participant2))
               (first_non_empty (difficulty participant1) (difficulty participant2))]
     ∧ match_events w' = match_events w ++ [entry]
     ∧ stream_id entry = Generated (length (match_events w))
     ∧ matchId (stream_message entry) = length (matchingEvents w)
     ∧ roomId (stream_message entry) = length (rooms w)
     ∧ user1 (stream_message entry)
       = mkUserSummary (userId participant1) (socketId participant1)
                       (category participant1) (difficulty participant1)
     ∧ user2 (stream_message entry)
       = mkUserSummary (userId participant2) (socketId participant2)
                       (category participant2) (difficulty participant2)
     ∧ matching_queue w' = matching_queue w)
  ∧ (∃ w' claimed pairs,
       outer_loop cfg faults clock validUsers matchedUsers w0 = (w', Ok (claimed, pairs))
       ∧ matchingEvents w' = matchingEvents w0 ++ (record_of <$> pairs)
       ∧ rooms w' = rooms w0 ++ (room_of <$> pairs)
       ∧ match_events w'
         = match_events w0
           ++ events_of pairs (length (match_events w0)) (length (matchingEvents w0))
                (length (rooms w0)))
  ∧ (∀ v : field, truthy v = true ↔ ∃ s, v = Some s ∧ s ≠ EmptyString).
Proof.
  intros Hreach Hreach_all. split_and!; [| | apply truthy_non_empty].
  - destruct (handleMatch_reaching_run fails
                (mkEntry EmptyString participant1, mkEntry EmptyString participant2) w Hreach)
      as (w' & E & C).
    destruct (handleMatch_run fails participant1 participant2 w) as (w'' & E' & Q & _).
    simpl in E. rewrite E in E'. injection E' as <-.
    unfold collections in C. injection C as Hs Hr Hm.
    eexists w', _. split; [exact E |]. split_and!; try done.
  - destruct (outer_loop_run cfg faults clock validUsers matchedUsers w0)
      as (w' & E & _ & _ & _ & _ & Hpub).
    apply published_by_reaching in Hpub; [| done].
    unfold collections in Hpub. simpl in Hpub. injection Hpub as Hs Hr Hm.
    eexists w', _, _. by split_and!.
Qed.

Lemma handleMatch_publishes_witness :
  ∃ w' entry,
    handleMatch (λ _, false) user_x user_y world_two_records = (w', Ok tt)
    ∧ match_events w' = [entry]
    ∧ stream_id entry = Generated 0
    ∧ matchId (stream_message entry) = 2%nat.
Proof.
  destruct (handleMatch_publishes default_config (frozen 2000) four_entries ∅ world_four
              no_faults (λ _, false) user_x user_y world_two_records)
    as ((w' & entry & E & _ & _ & Hs & Hid & Hm & _) & _); [reflexivity | done |].
  by exists w', entry.
Defined.

(** C9 as worded fails: with two records already saved and an empty
    stream, the record of the match gets the id 2 and the message carries
    that id in [matchId], but the entry is appended under the id the server
    generates for the first entry of the stream, not under the id of the
    record. *)
Lemma match_event_is_not_keyed_by_record_id :
  ∃ w' entry,
    handleMatch (λ _, false) user_x user_y world_two_records = (w', Ok tt)
    ∧ matchingEvents w' !! 2%nat = Some (mkMatchingEventDoc (Some "Math") (Some "Easy"))%string
    ∧ match_events w' = [entry]
    ∧ matchId (stream_message entry) = 2%nat
    ∧ stream_id entry = Generated 0
    ∧ stream_id entry ≠ Chosen 2.
Proof. eexists _, _. by vm_compute. Qed.

(** ** Timeout pass *)

(** C1, as the code has it.  The pass returns normally.  It evicts the
    snapshot entries that are past MATCH_TIMEOUT and whose socket is
    registered and connected: their keys leave the queue, their hashes are
    deleted, and each gets exactly one MATCH_FAILED notification on its
    socket, in snapshot order.  Every other key and hash is left as it was,
    so an entry past the timeout whose socket is missing or disconnected is
    neither notified nor evicted by the pass. *)
Theorem timeout_pass_evicts_reachable (cfg : Config) (validUsers : list Entry)
    (currentTime : Z) (w : World) :
  let gone := evicted cfg currentTime (sockets w) validUsers in
  ∃ w' notices,
    handleTimeouts cfg validUsers currentTime w = (w', Ok tt)
    ∧ (∀ entry, entry ∈ gone
                ↔ entry ∈ validUsers
                  ∧ MATCH_TIMEOUT cfg ≤ currentTime - requestedAt (userData entry)
                  ∧ ∃ sid socket, socketId (userData entry) = Some sid
                                  ∧ sockets w !! sid = Some socket
                                  ∧ connected socket = true)
    ∧ matching_queue w' = filter (λ k, k ∉ userKey <$> gone) (matching_queue w)
    ∧ (∀ k, hashes w' !! k
            = if decide (k ∈ userKey <$> gone) then None else hashes w !! k)
    ∧ emitted w' = emitted w ++ notices
    ∧ Forall2 (λ entry notice,
                 socketId (userData entry) = Some (emit_to notice)
                 ∧ emit_event notice = MATCH_FAILED)
              gone notices
    ∧ (∀ entry, entry ∈ gone →
                (userKey entry ∉ matching_queue w') ∧ hashes w' !! userKey entry = None).
Proof.
  intros gone.
  destruct (handleTimeouts_run cfg validUsers currentTime w) as (w' & E & Q & H & _ & M).
  fold gone in Q, H, M.
  exists w', (omap failure_notice gone). split_and!; try done.
  - intros entry. unfold gone, evicted. rewrite list_elem_of_filter.
    unfold evictable, timed_out, reachable.
    rewrite andb_true_iff, Z.geb_leb, Z.leb_le. split.
    + intros [[Ht Hr] Hin]. split_and!; [done | lia |].
      destruct (socketId (userData entry)) as [sid |]; [| done].
      destruct (sockets w !! sid) as [socket |] eqn:Es; [| done].
      by exists sid, socket.
    + intros (Hin & Ht & sid & socket & -> & -> & Hc). split_and!; [lia | done | done].
  - assert (Forall (λ entry, reachable (sockets w) entry = true) gone) as Hreach.
    { apply Forall_forall. intros entry. unfold gone, evicted.
      rewrite list_elem_of_filter. unfold evictable.
      rewrite andb_true_iff. tauto. }
    clear -Hreach. induction gone as [| entry gone IH]; simpl; [constructor |].
    apply Forall_cons in Hreach as [Hr Hreach].
    unfold reachable in Hr. unfold failure_notice at 1.
    destruct (socketId (userData entry)) as [sid |] eqn:Es; [| done]. simpl.
    constructor; [by rewrite Es | by apply IH].
  - intros entry Hin.
    assert (userKey entry ∈ userKey <$> gone) as Hk by (by apply list_elem_of_fmap_2).
    split.
    + rewrite Q, list_elem_of_filter. tauto.
    + rewrite H. by rewrite decide_True.
Qed.

(** C1 as worded fails: both sample users are past the timeout, one has a
    socket id that is not registered and the other a disconnected socket;
    the pass leaves the world as it was, with both in the queue, both hashes
    in place and nothing emitted. *)
Lemma timeout_pass_keeps_unreachable_entries :
  timed_out default_config 30000 (mkEntry "user:z" user_z) = true
  ∧ timed_out default_config 30000 (mkEntry "user:v" user_v) = true
  ∧ sockets world_stale !! "sz"%string = None
  ∧ sockets world_stale !! "sv"%string = Some (mkSocket false)
  ∧ handleTimeouts default_config
      [mkEntry "user:z" user_z; mkEntry "user:v" user_v] 30000 world_stale
    = (world_stale, Ok tt)
  ∧ matching_queue world_stale = ["user:z"; "user:v"]%string
  ∧ hashes world_stale !! "user:z"%string = Some user_z
  ∧ hashes world_stale !! "user:v"%string = Some user_v
  ∧ emitted world_stale = [].
Proof. by vm_compute. Qed.

(** * Further properties of the matching worker *)

(** ** Levels and compatibility *)

Lemma getRelaxedCriteria_cases (level : Z) (user : UserData) :
  getRelaxedCriteria level user = mkCriteria (category user) (difficulty user)
  ∨ getRelaxedCriteria level user = mkCriteria (category user) Any
  ∨ getRelaxedCriteria level user = mkCriteria Any (difficulty user).
Proof.
  destruct level as [| p | p]; [by left | | by left].
  destruct p as [[p | p |] | [p | p |] |]; simpl; auto.
Qed.

Lemma strict_eq_true (a b : field) : strict_eq a b = true ↔ a = b.
Proof. unfold strict_eq. apply bool_decide_eq_true. Qed.

Lemma strict_eq_false (a b : field) : strict_eq a b = false ↔ a ≠ b.
Proof. unfold strict_eq. apply bool_decide_eq_false. Qed.

Lemma isCriteriaSatisfied_disjoint (user other : UserData) (level : Z) :
  category other ≠ category user → difficulty other ≠ difficulty user →
  category other ≠ Any → difficulty other ≠ Any →
  isCriteriaSatisfied user (getRelaxedCriteria level other) = false.
Proof.
  intros Hc Hd Hca Hda. unfold isCriteriaSatisfied.
  destruct (getRelaxedCriteria_cases level other) as [-> | [-> | ->]]; simpl.
  - rewrite (proj2 (strict_eq_false (category other) Any)) by done.
    rewrite (proj2 (strict_eq_false (category user) (category other))) by congruence.
    done.
  - rewrite (proj2 (strict_eq_false (category other) Any)) by done.
    rewrite (proj2 (strict_eq_false (category user) (category other))) by congruence.
    done.
  - rewrite (proj2 (strict_eq_false (difficulty other) Any)) by done.
    rewrite (proj2 (strict_eq_false (difficulty user) (difficulty other))) by congruence.
    by destruct (strict_eq Any Any).
Qed.

(** X1.  The relaxation level is 0, 1 or 2 and never goes down as the
    clock advances, whatever the configured interval. *)
Theorem relaxation_level_never_decreases (cfg : Config) (now now' : Z) (user : UserData) :
  now ≤ now' →
  0 ≤ getRelaxationLevel cfg now user
  ∧ getRelaxationLevel cfg now user ≤ getRelaxationLevel cfg now' user
  ∧ getRelaxationLevel cfg now' user ≤ 2.
Proof.
  intros Hle. unfold getRelaxationLevel, level_of_elapsed.
  repeat match goal with
         | |- context [?a <=? ?b] => destruct (Z.leb_spec a b)
         end; lia.
Qed.

Lemma relaxation_level_never_decreases_witness :
  getRelaxationLevel default_config 15000 user_x
  ≤ getRelaxationLevel default_config 25000 user_x.
Proof.
  apply (relaxation_level_never_decreases default_config 15000 25000 user_x). lia.
Defined.

(** X2.  Two users who differ both in category and in difficulty, none of
    the four values being "Any", are never matched, whatever their levels. *)
Theorem different_criteria_never_match (user1 user2 : UserData) (level1 level2 : Z) :
  category user1 ≠ category user2 → difficulty user1 ≠ difficulty user2 →
  category user1 ≠ Some "Any"%string → difficulty user1 ≠ Some "Any"%string →
  category user2 ≠ Some "Any"%string → difficulty user2 ≠ Some "Any"%string →
  canUsersMatch user1 user2 level1 level2 = false.
Proof.
  intros Hc Hd Hc1 Hd1 Hc2 Hd2. unfold canUsersMatch.
  destruct (out_of_range level1) eqn:E1; [done |].
  destruct (out_of_range level2) eqn:E2; [done |].
  apply out_of_range_false in E1, E2.
  rewrite second_loop_direction, first_loop_direction by lia. simpl.
  apply orb_false_iff. split.
  - unfold direction_AB. apply not_true_is_false. rewrite existsb_exists.
    intros (i & _ & Hi).
    by rewrite isCriteriaSatisfied_disjoint in Hi.
  - unfold direction_BA. by apply isCriteriaSatisfied_disjoint.
Qed.

Lemma different_criteria_never_match_witness :
  canUsersMatch user_x user_z 2 2 = false.
Proof. by apply different_criteria_never_match. Defined.

(** X3.  From level 1 on, user1 is matched with any user of the same
    category, and at level 2 also with any user of the same difficulty,
    whatever the (valid) level of user2. *)
Theorem relaxed_user_matches_on_one_criterion
    (user1 user2 : UserData) (level1 level2 : Z) :
  0 ≤ level2 ≤ 2 →
  (1 ≤ level1 ≤ 2 ∧ category user2 = category user1)
  ∨ (level1 = 2 ∧ difficulty user2 = difficulty user1) →
  canUsersMatch user1 user2 level1 level2 = true.
Proof.
  intros H2 H. rewrite canUsersMatch_directions by lia.
  apply orb_true_iff. left. unfold direction_AB. apply existsb_exists.
  destruct H as [[H1 Hc] | [-> Hd]].
  - exists 1. split.
    + apply list_elem_of_In. unfold sub_levels. apply elem_of_seqZ. lia.
    + unfold isCriteriaSatisfied. simpl.
      rewrite (proj2 (strict_eq_true (category user2) (category user1))) by done.
      by rewrite ?orb_true_r.
  - exists 2. split.
    + apply list_elem_of_In. unfold sub_levels. apply elem_of_seqZ. lia.
    + unfold isCriteriaSatisfied. simpl.
      rewrite (proj2 (strict_eq_true (difficulty user2) (difficulty user1))) by done.
      by rewrite ?orb_true_r.
Qed.

Lemma relaxed_user_matches_on_one_criterion_witness :
  canUsersMatch user_z user_v 1 0 = true.
Proof.
  apply relaxed_user_matches_on_one_criterion; [lia |].
  left. split; [lia | reflexivity].
Defined.

(** X4.  Two users with the same category and the same difficulty are
    matched at any pair of valid levels. *)
Theorem same_criteria_always_match (user1 user2 : UserData) (level1 level2 : Z) :
  0 ≤ level1 ≤ 2 → 0 ≤ level2 ≤ 2 →
  category user1 = category user2 → difficulty user1 = difficulty user2 →
  canUsersMatch user1 user2 level1 level2 = true.
Proof.
  intros H1 H2 Hc Hd. rewrite canUsersMatch_directions by lia.
  apply orb_true_iff. left. unfold direction_AB.
  rewrite sub_levels_cons by lia. simpl. apply orb_true_iff. left.
  unfold isCriteriaSatisfied. simpl.
  rewrite (proj2 (strict_eq_true (category user2) (category user1))) by done.
  rewrite (proj2 (strict_eq_true (difficulty user2) (difficulty user1))) by done.
  by rewrite !orb_true_r.
Qed.

Lemma same_criteria_always_match_witness :
  canUsersMatch user_x user_y 0 2 = true.
Proof. apply same_criteria_always_match; [lia | lia | reflexivity | reflexivity]. Defined.

(** ** What a failed publication leaves behind *)

(** X5.  [handleMatch] does not undo what it did before the call that
    rejected.  If the queue print-out, the stream read or the saving of the
    match record rejects, nothing is stored; if the saving of the room
    rejects, the match record stays stored without room or event; if the
    append to the stream rejects, record and room stay stored without event;
    if only a later print-out or read rejects, record, room and event are
    all stored although an error is logged. *)
Theorem handleMatch_keeps_partial_publication
    (fails : Step → bool) (p : Pair) (w : World) :
  ∃ w',
    handleMatch fails (userData p.1) (userData p.2) w = (w', Ok tt)
    ∧ match first_failure fails with
      | Some LogQueuesBefore | Some XRangeBefore | Some SaveMatchingEvent =>
          match_events w' = match_events w
          ∧ matchingEvents w' = matchingEvents w
          ∧ rooms w' = rooms w
      | Some SaveRoom =>
          match_events w' = match_events w
          ∧ matchingEvents w' = matchingEvents w ++ [record_of p]
          ∧ rooms w' = rooms w
      | Some XAdd =>
          match_events w' = match_events w
          ∧ matchingEvents w' = matchingEvents w ++ [record_of p]
          ∧ rooms w' = rooms w ++ [room_of p]
      | _ =>
          match_events w'
          = match_events w
              ++ [event_of p (length (match_events w)) (length (matchingEvents w))
                    (length (rooms w))]
          ∧ matchingEvents w' = matchingEvents w ++ [record_of p]
          ∧ rooms w' = rooms w ++ [room_of p]
      end.
Proof.
  destruct (handleMatch_collections fails p w) as (w' & E & C).
  exists w'. split; [exact E |]. unfold collections in C.
  destruct (first_failure fails) as [[] |]; injection C as -> -> ->; done.
Qed.

(** X6.  Whatever rejects, [handleMatch] stores at most one match record
    and at most one room, a room only after a record, and every record or
    room it stores has a non-empty category and a non-empty difficulty. *)
Theorem handleMatch_stores_non_empty_criteria
    (fails : Step → bool) (user1 user2 : UserData) (w : World) :
  ∃ w' records rooms',
    handleMatch fails user1 user2 w = (w', Ok tt)
    ∧ matchingEvents w' = matchingEvents w ++ records
    ∧ rooms w' = rooms w ++ rooms'
    ∧ (length rooms' ≤ length records ≤ 1)%nat
    ∧ Forall (λ d, truthy (event_category d) = true ∧ truthy (event_difficulty d) = true)
             records
    ∧ Forall (λ r, truthy (room_category r) = true ∧ truthy (room_difficulty r) = true)
             rooms'.
Proof.
  destruct (handleMatch_collections fails (mkEntry EmptyString user1, mkEntry EmptyString user2) w)
    as (w' & E & C).
  simpl in E. unfold collections in C.
  assert (Forall (λ d, truthy (event_category d) = true ∧ truthy (event_difficulty d) = true)
                 [record_of (mkEntry EmptyString user1, mkEntry EmptyString user2)]) as Hrec.
  { repeat constructor; apply first_non_empty_truthy. }
  assert (Forall (λ r, truthy (room_category r) = true ∧ truthy (room_difficulty r) = true)
                 [room_of (mkEntry EmptyString user1, mkEntry EmptyString user2)]) as Hroom.
  { repeat constructor; apply first_non_empty_truthy. }
  destruct (first_failure fails) as [[] |]; injection C as _ Hr Hm;
    first
      [ exists w', [], []; rewrite !app_nil_r;
        split_and!; solve [exact E | done | simpl; lia | apply Forall_nil]
      | eexists w', [_], []; rewrite !app_nil_r;
        split_and!;
        solve [exact E | exact Hr | done | simpl; lia | exact Hrec | apply Forall_nil]
      | eexists w', [_], [_];
        split_and!;
        solve [exact E | exact Hr | exact Hm | simpl; lia | exact Hrec | exact Hroom] ].
Qed.

(** ** What the scan pairs and what it leaves *)

Lemma find_later {A} (f : A → bool) (l : list A) (x : A) :
  List.find f l = Some x → ∃ before after, l = before ++ x :: after ∧ f x = true.
Proof. intros H. apply find_first in H as (b & a & ? & ? & _). by exists b, a. Qed.

(** Each pair of the reference pairing is made of two snapshot entries, the
    second after the first, both in the queue, both unclaimed, the first
    compatible with the second. *)
Lemma first_fit_pairs_sound cfg clock queue claimed snapshot (p : Pair) :
  p ∈ first_fit_pairs cfg clock queue claimed snapshot →
  (∃ l1 l2 l3, snapshot = l1 ++ p.1 :: l2 ++ p.2 :: l3)
  ∧ userKey p.1 ∈ queue ∧ userKey p.2 ∈ queue
  ∧ (userKey p.1 ∉ claimed) ∧ (userKey p.2 ∉ claimed)
  ∧ canMatch cfg clock p.1 p.2 = true.
Proof.
  revert queue claimed.
  induction snapshot as [| entry_i later IH]; intros queue claimed; simpl.
  - intros H. by apply elem_of_nil in H.
  - assert (∀ q c, p ∈ first_fit_pairs cfg clock q c later → q ⊆ queue → claimed ⊆ c →
                   (∃ l1 l2 l3, entry_i :: later = l1 ++ p.1 :: l2 ++ p.2 :: l3)
                   ∧ userKey p.1 ∈ queue ∧ userKey p.2 ∈ queue
                   ∧ (userKey p.1 ∉ claimed) ∧ (userKey p.2 ∉ claimed)
                   ∧ canMatch cfg clock p.1 p.2 = true) as Hrec.
    { intros q c Hp Hq Hc.
      destruct (IH q c Hp) as ((l1 & l2 & l3 & ->) & H1 & H2 & H3 & H4 & H5).
      split_and!; [by exists (entry_i :: l1), l2, l3 | by apply Hq | by apply Hq | | | done].
      - intros ?. by apply H3, Hc.
      - intros ?. by apply H4, Hc. }
    destruct (bool_decide (userKey entry_i ∉ claimed)
              && bool_decide (userKey entry_i ∈ queue)) eqn:Ei;
      [| intros Hp; by apply (Hrec queue claimed)].
    apply andb_true_iff in Ei as [Hic%bool_decide_eq_true Hiq%bool_decide_eq_true].
    destruct (List.find _ later) as [entry_j |] eqn:Ef;
      [| intros Hp; by apply (Hrec queue claimed)].
    intros [-> | Hp]%elem_of_cons.
    + apply find_later in Ef as (before & after & -> & Hpartner).
      unfold partner in Hpartner.
      apply andb_true_iff in Hpartner as [Hpartner Hcan].
      apply andb_true_iff in Hpartner as [Hjc%bool_decide_eq_true Hjq%bool_decide_eq_true].
      simpl. split_and!; try done. by exists [], before, after.
    + apply (Hrec _ _ Hp).
      * intros k Hk. by do 2 apply remove_member_subseteq in Hk.
      * intros k Hk. by do 2 apply elem_of_union_r.
Qed.

(** Two entries that the reference pairing leaves unpaired, both in the
    queue and unclaimed, the first before the second in the snapshot, are
    not compatible in that order. *)
Lemma first_fit_pairs_maximal cfg clock queue claimed
      (entry_i entry_j : Entry) (l1 l2 l3 : list Entry) :
  userKey entry_i ∈ queue → userKey entry_j ∈ queue →
  userKey entry_i ∉ claimed → userKey entry_j ∉ claimed →
  userKey entry_i
    ∉ pair_keys (first_fit_pairs cfg clock queue claimed (l1 ++ entry_i :: l2 ++ entry_j :: l3)) →
  userKey entry_j
    ∉ pair_keys (first_fit_pairs cfg clock queue claimed (l1 ++ entry_i :: l2 ++ entry_j :: l3)) →
  canMatch cfg clock entry_i entry_j = false.
Proof.
  revert queue claimed.
  induction l1 as [| e l1 IH]; intros queue claimed Hiq Hjq Hic Hjc; simpl.
  - rewrite (bool_decide_eq_true_2 _ Hic), (bool_decide_eq_true_2 _ Hiq). simpl.
    destruct (List.find _ _) as [partner_found |] eqn:Ef.
    + simpl. intros Hi _. exfalso. apply Hi, list_elem_of_here.
    + intros _ _.
      pose proof (find_none _ _ Ef entry_j) as Hn.
      unfold partner in Hn.
      rewrite (bool_decide_eq_true_2 _ Hjc), (bool_decide_eq_true_2 _ Hjq) in Hn.
      apply Hn. apply in_or_app. right. by left.
  - destruct (bool_decide (userKey e ∉ claimed) && bool_decide (userKey e ∈ queue));
      [| by apply (IH queue claimed)].
    destruct (List.find _ _) as [partner_found |] eqn:Ef;
      [| by apply (IH queue claimed)].
    simpl. rewrite !not_elem_of_cons. intros (Hi1 & Hi2 & Hi) (Hj1 & Hj2 & Hj).
    apply (IH (remove_member (userKey partner_found) (remove_member (userKey e) queue))
              ({[userKey partner_found]} ∪ ({[userKey e]} ∪ claimed))); try done.
    + unfold remove_member. rewrite !list_elem_of_filter. done.
    + unfold remove_member. rewrite !list_elem_of_filter. done.
    + rewrite !elem_of_union, !elem_of_singleton. tauto.
    + rewrite !elem_of_union, !elem_of_singleton. tauto.
Qed.

(** X7.  Every pair the scan makes consists of two snapshot entries,
    user1 before user2 in the snapshot, that were both still in the queue
    when the scan started and both unclaimed, and [canUsersMatch] accepted
    them at the levels the scan read: that of user1 when its turn started,
    that of user2 when the pair was checked.  An entry that has left the
    queue is never paired, and no pair is made that the check rejected. *)
Theorem scan_pairs_only_waiting_compatible_entries
    (cfg : Config) (faults : string → string → Step → bool) (clock : ClockRead → Z)
    (validUsers : list Entry) (matchedUsers : gset string) (w : World) :
  ∃ w' claimed pairs,
    outer_loop cfg faults clock validUsers matchedUsers w = (w', Ok (claimed, pairs))
    ∧ ∀ p, p ∈ pairs →
           (∃ l1 l2 l3, validUsers = l1 ++ p.1 :: l2 ++ p.2 :: l3)
           ∧ p.1 ∈ validUsers ∧ p.2 ∈ validUsers
           ∧ userKey p.1 ∈ matching_queue w ∧ userKey p.2 ∈ matching_queue w
           ∧ (userKey p.1 ∉ matchedUsers) ∧ (userKey p.2 ∉ matchedUsers)
           ∧ canUsersMatch (userData p.1) (userData p.2)
               (getRelaxationLevel cfg (clock (ForUser1 (userKey p.1))) (userData p.1))
               (getRelaxationLevel cfg (clock (ForUser2 (userKey p.1) (userKey p.2)))
                  (userData p.2)) = true.
Proof.
  destruct (outer_loop_run cfg faults clock validUsers matchedUsers w) as (w' & E & _).
  eexists w', _, _. split; [exact E |].
  intros p Hp.
  apply first_fit_pairs_sound in Hp as ((l1 & l2 & l3 & ->) & H1 & H2 & H3 & H4 & H5).
  split_and!; try done.
  - by exists l1, l2, l3.
  - apply elem_of_app. right. apply list_elem_of_here.
  - apply elem_of_app. right. apply list_elem_of_further.
    apply elem_of_app. right. apply list_elem_of_here.
Qed.

(** X8.  The scan only takes keys out of the queue: it deletes no hash,
    emits nothing to any socket and adds no key to the queue, so the hashes
    of matched users stay in the store. *)
Theorem scan_keeps_hashes_and_sockets
    (cfg : Config) (faults : string → string → Step → bool) (clock : ClockRead → Z)
    (validUsers : list Entry) (matchedUsers : gset string) (w : World) :
  ∃ w' result,
    outer_loop cfg faults clock validUsers matchedUsers w = (w', Ok result)
    ∧ hashes w' = hashes w
    ∧ sockets w' = sockets w
    ∧ emitted w' = emitted w
    ∧ matching_queue w' ⊆ matching_queue w
    ∧ (∀ p, p ∈ result.2 →
            hashes w' !! userKey p.1 = hashes w !! userKey p.1
            ∧ hashes w' !! userKey p.2 = hashes w !! userKey p.2).
Proof.
  destruct (outer_loop_run cfg faults clock validUsers matchedUsers w)
    as (w' & E & Q & H & S & M & _).
  eexists w', _. split; [exact E |]. split_and!; try done.
  - rewrite Q. intros k. rewrite list_elem_of_filter. tauto.
  - intros p _. by rewrite H.
Qed.

(** X9.  When the scan ends, two snapshot entries that it left unpaired,
    both in the queue at the start, the one before the other in the
    snapshot, were checked and rejected: [canUsersMatch] answers false for
    them, the earlier one as user1, at the levels the scan read for that
    check.  So an entry stays unpaired only if the check rejects it against
    every later entry that also stays unpaired. *)
Theorem scan_leaves_no_compatible_pair_in_order
    (cfg : Config) (faults : string → string → Step → bool) (clock : ClockRead → Z)
    (l1 l2 l3 : list Entry) (entry_i entry_j : Entry) (w : World) :
  userKey entry_i ∈ matching_queue w → userKey entry_j ∈ matching_queue w →
  ∃ w' claimed pairs,
    outer_loop cfg faults clock (l1 ++ entry_i :: l2 ++ entry_j :: l3) ∅ w
    = (w', Ok (claimed, pairs))
    ∧ (userKey entry_i ∉ claimed → userKey entry_j ∉ claimed →
       canUsersMatch (userData entry_i) (userData entry_j)
         (getRelaxationLevel cfg (clock (ForUser1 (userKey entry_i))) (userData entry_i))
         (getRelaxationLevel cfg (clock (ForUser2 (userKey entry_i) (userKey entry_j)))
            (userData entry_j)) = false).
Proof.
  intros Hi Hj.
  destruct (outer_loop_run cfg faults clock (l1 ++ entry_i :: l2 ++ entry_j :: l3) ∅ w)
    as (w' & E & _).
  eexists w', _, _. split; [exact E |].
  rewrite union_empty_r_L, !elem_of_list_to_set. intros Hic Hjc.
  apply (first_fit_pairs_maximal cfg clock (matching_queue w) ∅ entry_i entry_j l1 l2 l3);
    try done; apply not_elem_of_empty.
Qed.

(** With the clock passing from 100000 to 100001 between the two readings,
    the two sample users stay unpaired: the check is made at the levels 1
    and 2. *)
Lemma scan_leaves_no_compatible_pair_in_order_witness :
  ∃ w' claimed pairs,
    outer_loop default_config no_faults advancing_clock
      [mkEntry "user:m" user_m; mkEntry "user:e" user_e] ∅ world_me
    = (w', Ok (claimed, pairs))
    ∧ ("user:m"%string ∉ claimed → "user:e"%string ∉ claimed →
       canUsersMatch user_m user_e 1 2 = false).
Proof.
  apply (scan_leaves_no_compatible_pair_in_order default_config no_faults advancing_clock
           [] [] [] (mkEntry "user:m" user_m) (mkEntry "user:e" user_e) world_me).
  - apply (bool_decide_unpack _). by vm_compute.
  - apply (bool_decide_unpack _). by vm_compute.
Defined.

(** X10.  In every pair made from the snapshot of a tick, user1 is the one
    who asked first: its [requestedAt] is not later than that of user2. *)
Theorem user1_requested_first
    (cfg : Config) (faults : string → string → Step → bool) (clock : ClockRead → Z)
    (w : World) :
  ∃ validUsers w' claimed pairs,
    snapshot w = (w, Ok validUsers)
    ∧ outer_loop cfg faults clock validUsers ∅ w = (w', Ok (claimed, pairs))
    ∧ ∀ p, p ∈ pairs → requestedAt (userData p.1) ≤ requestedAt (userData p.2).
Proof.
  eexists _. 
  destruct (outer_loop_run cfg faults clock
              (sort_by_requestedAt
                 (filter_valid ((λ k, mkEntry k <$> hashes w !! k) <$> matching_queue w)))
              ∅ w) as (w' & E & _).
  eexists w', _, _. split; [apply snapshot_run |]. split; [exact E |].
  intros p Hp.
  apply first_fit_pairs_sound in Hp as ((l1 & l2 & l3 & Hsplit) & _).
  pose proof (sort_by_requestedAt_sorted
                (filter_valid ((λ k, mkEntry k <$> hashes w !! k) <$> matching_queue w)))
    as Hsorted.
  rewrite Hsplit in Hsorted.
  apply StronglySorted_app_1_r, StronglySorted_cons in Hsorted as [Hall _].
  rewrite Forall_app, Forall_cons in Hall. by destruct Hall as (_ & ? & _).
Qed.

(** ** The tick as a whole *)

(** X11.  The timeout pass of a tick runs over the whole snapshot, also
    over the entries the scan of the same tick has just paired: a paired
    user who is past MATCH_TIMEOUT and whose socket is connected is sent
    MATCH_FAILED and loses its hash in the tick that matched it. *)
Theorem tick_times_out_entries_it_just_paired
    (cfg : Config) (faults : string → string → Step → bool) (clock : ClockRead → Z)
    (now : Z) (w : World)
    (p : Pair) (entry : Entry) (sid : string) (socket : Socket) :
  p ∈ first_fit_pairs cfg clock (matching_queue w) ∅
        (sort_by_requestedAt
           (filter_valid ((λ k, mkEntry k <$> hashes w !! k) <$> matching_queue w))) →
  entry = p.1 ∨ entry = p.2 →
  MATCH_TIMEOUT cfg ≤ now - requestedAt (userData entry) →
  socketId (userData entry) = Some sid →
  sockets w !! sid = Some socket →
  connected socket = true →
  ∃ w',
    tick cfg faults clock now w = (w', Ok tt)
    ∧ mkEmit sid MATCH_FAILED "Match timed out. Please try again." ∈ emitted w'
    ∧ hashes w' !! userKey entry = None.
Proof.
  intros Hp Hentry Htime Hsid Hsocket Hconnected.
  destruct (tick_run cfg faults clock now w) as (w' & E & _ & H & M).
  exists w'. split; [exact E |].
  assert (entry ∈ evicted cfg now (sockets w)
            (sort_by_requestedAt
               (filter_valid ((λ k, mkEntry k <$> hashes w !! k) <$> matching_queue w))))
    as Hgone.
  { unfold evicted. apply list_elem_of_filter. split.
    - unfold evictable, timed_out, reachable.
      rewrite Hsid, Hsocket, Hconnected, andb_true_r, Z.geb_leb. by apply Z.leb_le.
    - apply first_fit_pairs_sound in Hp as ((l1 & l2 & l3 & ->) & _).
      destruct Hentry as [-> | ->].
      + apply elem_of_app. right. apply list_elem_of_here.
      + apply elem_of_app. right. apply list_elem_of_further.
        apply elem_of_app. right. apply list_elem_of_here. }
  split.
  - rewrite M. apply elem_of_app. right. apply list_elem_of_omap.
    exists entry. split; [done |]. unfold failure_notice. by rewrite Hsid.
  - rewrite H. rewrite decide_True; [done |]. by apply list_elem_of_fmap_2.
Qed.

Lemma tick_times_out_entries_it_just_paired_witness :
  ∃ w',
    tick default_config no_faults (frozen 40000) 40000 world_xy = (w', Ok tt)
    ∧ mkEmit "sx" MATCH_FAILED "Match timed out. Please try again." ∈ emitted w'
    ∧ hashes w' !! "user:x"%string = None.
Proof.
  apply (tick_times_out_entries_it_just_paired default_config no_faults (frozen 40000) 40000
           world_xy
           (mkEntry "user:x" user_x, mkEntry "user:y" user_y)
           (mkEntry "user:x" user_x) "sx" (mkSocket true)).
  - vm_compute. apply list_elem_of_here.
  - by left.
  - by vm_compute.
  - reflexivity.
  - by vm_compute.
  - reflexivity.
Defined.

Lemma filter_valid_none (h : gmap string UserData) (userKeys : list string) :
  (∀ k, k ∈ userKeys → h !! k = None) →
  filter_valid ((λ k, mkEntry k <$> h !! k) <$> userKeys) = [].
Proof.
  induction userKeys as [| k userKeys IH]; intros Hnone; [done |].
  unfold filter_valid in *. simpl.
  rewrite (Hnone k) by apply list_elem_of_here. simpl.
  apply IH. intros k' Hk'. by apply Hnone, list_elem_of_further.
Qed.

(** X12.  A key of the queue whose hash is missing is invisible to the
    worker: a tick over a queue in which no key has a hash, the empty queue
    included, changes nothing at all, so such keys are never removed from
    the queue. *)
Theorem tick_ignores_keys_without_hash
    (cfg : Config) (faults : string → string → Step → bool) (clock : ClockRead → Z)
    (now : Z) (w : World) :
  (∀ k, k ∈ matching_queue w → hashes w !! k = None) →
  tick cfg faults clock now w = (w, Ok tt).
Proof.
  intros Hnone. unfold tick, try_catch.
  rewrite (bind_ok _ _ _ _ _ (snapshot_run w)).
  by rewrite (filter_valid_none _ _ Hnone).
Qed.

Lemma tick_ignores_keys_without_hash_witness :
  tick default_config no_faults (frozen 40000) 40000 world_ghost = (world_ghost, Ok tt).
Proof.
  apply tick_ignores_keys_without_hash.
  intros k _. reflexivity.
Defined.

(** * Properties of the question controller *)

Module QuestionControllerFacts.
Import QuestionController.

Lemma findQuestion_Some db id d q :
  findQuestion db id d = Some q →
  q ∈ questionModel db ∧ id ∈ categories q ∧ difficulty q = d.
Proof.
  unfold findQuestion. intros [Hin Hq]%find_some.
  apply andb_true_iff in Hq as [Hc%bool_decide_eq_true Hd%bool_decide_eq_true].
  split_and!; [by apply list_elem_of_In | done | done].
Qed.

Lemma findQuestion_None db id d :
  findQuestion db id d = None ↔
  ∀ q, q ∈ questionModel db → id ∈ categories q → difficulty q ≠ d.
Proof.
  unfold findQuestion. split.
  - intros Hnone q Hin Hc Hd.
    apply list_elem_of_In in Hin. apply (find_none _ _ Hnone) in Hin.
    rewrite (bool_decide_eq_true_2 _ Hc), (bool_decide_eq_true_2 _ Hd) in Hin. done.
  - intros Hall. destruct (List.find _ _) as [q |] eqn:Ef; [| done].
    apply find_some in Ef as [Hin Hq]. apply list_elem_of_In in Hin.
    apply andb_true_iff in Hq as [Hc%bool_decide_eq_true Hd%bool_decide_eq_true].
    by destruct (Hall q Hin Hc).
Qed.

Lemma findCategory_Some db categoryName c :
  findCategory db categoryName = Some c → c ∈ categoryModel db ∧ name c = categoryName.
Proof.
  unfold findCategory. intros [Hin Hc%bool_decide_eq_true]%find_some.
  split; [by apply list_elem_of_In | done].
Qed.

Lemma indexOf_None_DIFFICULTIES d :
  indexOf d DIFFICULTIES = None ↔ d ∉ DIFFICULTIES.
Proof.
  unfold DIFFICULTIES. simpl. rewrite !not_elem_of_cons.
  repeat case_decide; subst; simpl; split; try done; try (intros (? & ? & ? & _); done).
  intros _. split_and!; try done. apply not_elem_of_nil.
Qed.

(** What a loop over difficulties returns, by the first difficulty at which
    the store rejects or has a question. *)
Lemma first_available_Found rejects db id visited q :
  first_available rejects db id visited = Found q ↔
  ∃ before d after,
    visited = before ++ d :: after
    ∧ rejects (QuestionByDifficulty id d) = None
    ∧ findQuestion db id d = Some q
    ∧ ∀ d', d' ∈ before →
            rejects (QuestionByDifficulty id d') = None ∧ findQuestion db id d' = None.
Proof.
  induction visited as [| d visited IH]; simpl.
  { split; [done |]. intros ([| ? ?] & ? & ? & [=] & _). }
  unfold awaited. destruct (rejects (QuestionByDifficulty id d)) as [error |] eqn:Er.
  { split; [done |]. intros ([| d0 before] & d1 & after & [= <- ->] & Hr & Hq & Hb).
    - congruence.
    - destruct (Hb d); [apply list_elem_of_here | congruence]. }
  destruct (findQuestion db id d) as [q0 |] eqn:E.
  - split.
    + intros [= ->]. exists [], d, visited. split_and!; try done.
      intros d' Hd'. by apply elem_of_nil in Hd'.
    + intros ([| d0 before] & d1 & after & [= <- ->] & Hr & Hq & Hb).
      * congruence.
      * destruct (Hb d); [apply list_elem_of_here | congruence].
  - rewrite IH. split.
    + intros (before & d0 & after & -> & Hr & Hq & Hb).
      exists (d :: before), d0, after. split_and!; try done.
      intros d' [-> | Hd']%elem_of_cons; [done | by apply Hb].
    + intros ([| d0 before] & d1 & after & [= <- ->] & Hr & Hq & Hb); [congruence |].
      exists before, d1, after. split_and!; try done.
      intros d' Hd'. by apply Hb, list_elem_of_further.
Qed.

Lemma first_available_Null rejects db id visited :
  first_available rejects db id visited = Null ↔
  ∀ d, d ∈ visited →
       rejects (QuestionByDifficulty id d) = None ∧ findQuestion db id d = None.
Proof.
  induction visited as [| d visited IH]; simpl.
  { split; [| done]. intros _ d Hd. by apply elem_of_nil in Hd. }
  unfold awaited. destruct (rejects (QuestionByDifficulty id d)) as [error |] eqn:Er.
  { split; [done |]. intros Hall. destruct (Hall d); [apply list_elem_of_here | congruence]. }
  destruct (findQuestion db id d) as [q0 |] eqn:E.
  - split; [done |]. intros Hall. destruct (Hall d); [apply list_elem_of_here | congruence].
  - rewrite IH. split.
    + intros Hall d' [-> | Hd']%elem_of_cons; [done | by apply Hall].
    + intros Hall d' Hd'. by apply Hall, list_elem_of_further.
Qed.

Lemma first_available_Caught rejects db id visited error :
  first_available rejects db id visited = Caught error ↔
  ∃ before d after,
    visited = before ++ d :: after
    ∧ rejects (QuestionByDifficulty id d) = Some error
    ∧ ∀ d', d' ∈ before →
            rejects (QuestionByDifficulty id d') = None ∧ findQuestion db id d' = None.
Proof.
  induction visited as [| d visited IH]; simpl.
  { split; [done |]. intros ([| ? ?] & ? & ? & [=] & _). }
  unfold awaited. destruct (rejects (QuestionByDifficulty id d)) as [error' |] eqn:Er.
  { split.
    - intros [= ->]. exists [], d, visited. split_and!; try done.
      intros d' Hd'. by apply elem_of_nil in Hd'.
    - intros ([| d0 before] & d1 & after & [= <- ->] & Hr & Hb).
      + congruence.
      + destruct (Hb d); [apply list_elem_of_here | congruence]. }
  destruct (findQuestion db id d) as [q0 |] eqn:E.
  - split; [done |].
    intros ([| d0 before] & d1 & after & [= <- ->] & Hr & Hb).
    + congruence.
    + destruct (Hb d); [apply list_elem_of_here | congruence].
  - rewrite IH. split.
    + intros (before & d0 & after & -> & Hr & Hb).
      exists (d :: before), d0, after. split_and!; try done.
      intros d' [-> | Hd']%elem_of_cons; [done | by apply Hb].
    + intros ([| d0 before] & d1 & after & [= <- ->] & Hr & Hb); [congruence |].
      exists before, d1, after. split_and!; try done.
      intros d' Hd'. by apply Hb, list_elem_of_further.
Qed.

(** For a listed difficulty the exact look-up and the two loops make one
    search along [search_order]. *)
Lemma findSuitableQuestion_listed rejects db categoryName d c :
  rejects (CategoryByName categoryName) = None →
  findCategory db categoryName = Some c →
  d ∈ DIFFICULTIES →
  findSuitableQuestion rejects db categoryName d
  = first_available rejects db (category_id c) (search_order d).
Proof.
  intros Er Ec Hd. unfold findSuitableQuestion, awaited. rewrite Er, Ec.
  unfold DIFFICULTIES in Hd.
  repeat (apply elem_of_cons in Hd as [-> | Hd]); [| | | by apply elem_of_nil in Hd];
    unfold search_order, lower_difficulties, higher_difficulties, DIFFICULTIES; simpl;
    unfold awaited;
    repeat match goal with
           | |- context [rejects (QuestionByDifficulty (category_id c) ?d')] =>
               destruct (rejects (QuestionByDifficulty (category_id c) d')); try reflexivity
           | |- context [findQuestion db (category_id c) ?d'] =>
               destruct (findQuestion db (category_id c) d'); try reflexivity
           end.
Qed.

(** The calls made before the category is known and, for an unlisted
    difficulty, the only look-up made in it. *)
Lemma findSuitableQuestion_unlisted rejects db categoryName d c :
  rejects (CategoryByName categoryName) = None →
  findCategory db categoryName = Some c →
  d ∉ DIFFICULTIES →
  findSuitableQuestion rejects db categoryName d
  = match rejects (QuestionByDifficulty (category_id c) d) with
    | Some error => Caught error
    | None =>
        match findQuestion db (category_id c) d with
        | Some q => Found q
        | None => Caught ("Invalid difficulty level: " +:+ d)
        end
    end.
Proof.
  intros Er Ec Hd. unfold findSuitableQuestion, awaited. rewrite Er, Ec.
  apply indexOf_None_DIFFICULTIES in Hd. rewrite Hd.
  destruct (rejects (QuestionByDifficulty (category_id c) d)); [done |].
  by destruct (findQuestion _ _ _).
Qed.

Lemma findSuitableQuestion_no_category rejects db categoryName d :
  findSuitableQuestion rejects db categoryName d
  = match rejects (CategoryByName categoryName) with
    | Some error => Caught error
    | None =>
        match findCategory db categoryName with
        | None => Caught ("Category '" +:+ categoryName +:+ "' not found.")
        | Some c => findSuitableQuestion rejects db categoryName d
        end
    end.
Proof.
  unfold findSuitableQuestion at 1, awaited.
  destruct (rejects (CategoryByName categoryName)) eqn:Er; [done |].
  destruct (findCategory db categoryName) eqn:Ec; [| done].
  unfold findSuitableQuestion, awaited. by rewrite Er, Ec.
Qed.

Lemma search_order_listed d :
  d ∈ DIFFICULTIES → ∀ d', d' ∈ DIFFICULTIES ↔ d' ∈ search_order d.
Proof.
  intros Hd d'. unfold DIFFICULTIES in Hd.
  repeat (apply elem_of_cons in Hd as [-> | Hd]); [| | | by apply elem_of_nil in Hd];
    unfold search_order, DIFFICULTIES; simpl; rewrite !elem_of_cons; tauto.
Qed.

Lemma listed_or_not d : d ∈ DIFFICULTIES ∨ d ∉ DIFFICULTIES.
Proof. destruct (decide (d ∈ DIFFICULTIES)); auto. Qed.

(** X13.  A question returned by [findSuitableQuestion] is a stored
    question that belongs to the first category with the requested name, and
    its difficulty is the requested one or one of the listed difficulties:
    the lookup never leaves the requested category. *)
Theorem found_question_is_in_category
    (rejects : Query → option string) (db : Db) (categoryName d : string) (q : Question) :
  findSuitableQuestion rejects db categoryName d = Found q →
  ∃ c,
    findCategory db categoryName = Some c
    ∧ c ∈ categoryModel db
    ∧ name c = categoryName
    ∧ q ∈ questionModel db
    ∧ category_id c ∈ categories q
    ∧ (difficulty q = d ∨ difficulty q ∈ DIFFICULTIES).
Proof.
  rewrite findSuitableQuestion_no_category.
  destruct (rejects (CategoryByName categoryName)) eqn:Er; [done |].
  destruct (findCategory db categoryName) as [c |] eqn:Ec; [| done].
  destruct (findCategory_Some _ _ _ Ec) as [Hc Hn].
  intros Hfound. exists c.
  destruct (listed_or_not d) as [Hd | Hd].
  - rewrite (findSuitableQuestion_listed _ _ _ _ _ Er Ec Hd) in Hfound.
    apply first_available_Found in Hfound as (before & d0 & after & Ho & _ & Hq & _).
    apply findQuestion_Some in Hq as (? & ? & ->).
    split_and!; try done. right. apply (search_order_listed d Hd).
    rewrite Ho. apply elem_of_app. right. apply list_elem_of_here.
  - rewrite (findSuitableQuestion_unlisted _ _ _ _ _ Er Ec Hd) in Hfound.
    destruct (rejects (QuestionByDifficulty (category_id c) d)); [done |].
    destruct (findQuestion db (category_id c) d) as [q0 |] eqn:E0; [| done].
    injection Hfound as ->. apply findQuestion_Some in E0 as (? & ? & ?).
    split_and!; auto.
Qed.

Lemma found_question_is_in_category_witness :
  ∃ c, findCategory sample_db "Arrays" = Some c ∧ name c = "Arrays"%string.
Proof.
  destruct (found_question_is_in_category answers sample_db "Arrays" "medium"
              (mkQuestion 10 1 "Two Sum" EmptyString "easy" [1%nat] None) eq_refl)
    as (c & Hc & _ & Hn & _).
  by exists c.
Defined.

(** X14.  When the two look-ups answer and the category holds a question of
    exactly the requested difficulty, the question returned has that
    difficulty, whether or not the difficulty is a listed one. *)
Theorem exact_difficulty_is_preferred
    (rejects : Query → option string) (db : Db) (categoryName d : string)
    (c : Category) (q' : Question) :
  rejects (CategoryByName categoryName) = None →
  rejects (QuestionByDifficulty (category_id c) d) = None →
  findCategory db categoryName = Some c →
  q' ∈ questionModel db → category_id c ∈ categories q' → difficulty q' = d →
  ∃ q, findSuitableQuestion rejects db categoryName d = Found q
       ∧ difficulty q = d
       ∧ category_id c ∈ categories q.
Proof.
  intros Er Er' Ec Hin Hc Hd. unfold findSuitableQuestion, awaited. rewrite Er, Ec, Er'.
  destruct (findQuestion db (category_id c) d) as [q |] eqn:E.
  - apply findQuestion_Some in E as (? & ? & ?). by exists q.
  - exfalso. by apply (proj1 (findQuestion_None _ _ _) E q').
Qed.

Lemma exact_difficulty_is_preferred_witness :
  ∃ q, findSuitableQuestion fails_on_hard sample_db "Graphs" "hard" = Found q
       ∧ difficulty q = "hard"%string.
Proof.
  destruct (exact_difficulty_is_preferred fails_on_hard sample_db "Graphs" "hard"
              (mkCategory 2 "Graphs")
              (mkQuestion 11 2 "Shortest Path" EmptyString "hard" [2%nat] None))
    as (q & E & Hd & _).
  - reflexivity.
  - reflexivity.
  - reflexivity.
  - vm_compute. apply list_elem_of_further, list_elem_of_here.
  - vm_compute. apply list_elem_of_here.
  - reflexivity.
  - by exists q.
Defined.

(** X15.  For a listed difficulty the category is searched in the order
    itself, nearest lower, ..., lowest, nearest higher, ..., highest (easy:
    easy, medium, hard; medium: medium, easy, hard; hard: hard, medium,
    easy), and the question returned is the first stored question of the
    first difficulty in that order for which the category has one; the
    look-ups up to that one were all answered. *)
Theorem fallback_tries_lower_then_higher
    (rejects : Query → option string) (db : Db) (categoryName d : string)
    (c : Category) (q : Question) :
  findCategory db categoryName = Some c →
  d ∈ DIFFICULTIES →
  findSuitableQuestion rejects db categoryName d = Found q →
  (d = "easy"%string → search_order d = ["easy"; "medium"; "hard"]%string)
  ∧ (d = "medium"%string → search_order d = ["medium"; "easy"; "hard"]%string)
  ∧ (d = "hard"%string → search_order d = ["hard"; "medium"; "easy"]%string)
  ∧ ∃ before after,
      search_order d = before ++ difficulty q :: after
      ∧ findQuestion db (category_id c) (difficulty q) = Some q
      ∧ (∀ d', d' ∈ before → findQuestion db (category_id c) d' = None)
      ∧ (∀ d', d' ∈ before ++ [difficulty q] →
               rejects (QuestionByDifficulty (category_id c) d') = None).
Proof.
  intros Ec Hd. rewrite findSuitableQuestion_no_category, Ec.
  destruct (rejects (CategoryByName categoryName)) eqn:Er; [done |].
  rewrite (findSuitableQuestion_listed _ _ _ _ _ Er Ec Hd).
  intros (before & d0 & after & Ho & Hr & Hq & Hb)%first_available_Found.
  split_and!; try (by intros ->).
  pose proof (findQuestion_Some _ _ _ _ Hq) as (_ & _ & Hd0).
  exists before, after. rewrite Hd0. split_and!; try done.
  - intros d' Hd'. by apply Hb.
  - intros d' [Hd' | ->%list_elem_of_singleton]%elem_of_app; [by apply Hb | done].
Qed.

Lemma fallback_tries_lower_then_higher_witness :
  ∃ before after,
    search_order "medium" = before ++ "easy"%string :: after
    ∧ findQuestion sample_db 1 "medium" = None.
Proof.
  destruct (fallback_tries_lower_then_higher fails_on_hard sample_db "Arrays" "medium"
              (mkCategory 1 "Arrays")
              (mkQuestion 10 1 "Two Sum" EmptyString "easy" [1%nat] None))
    as (_ & _ & _ & before & after & Ho & _ & Hnone & _).
  - reflexivity.
  - unfold DIFFICULTIES. apply list_elem_of_further, list_elem_of_here.
  - reflexivity.
  - exists before, after. split; [exact Ho | reflexivity].
Defined.

(** X16.  [findSuitableQuestion] answers [null] exactly when every call was
    answered, the category exists, the difficulty is one of the listed ones
    and the category has no question of any listed difficulty; so with a
    listed difficulty and a store that answers it finds a question whenever
    the category has one of a listed difficulty.  Before answering [null] it
    has asked for all three difficulties. *)
Theorem null_means_no_listed_question
    (rejects : Query → option string) (db : Db) (categoryName d : string) :
  findSuitableQuestion rejects db categoryName d = Null ↔
  ∃ c,
    rejects (CategoryByName categoryName) = None
    ∧ findCategory db categoryName = Some c
    ∧ d ∈ DIFFICULTIES
    ∧ (∀ d', d' ∈ DIFFICULTIES → rejects (QuestionByDifficulty (category_id c) d') = None)
    ∧ ∀ q, q ∈ questionModel db → category_id c ∈ categories q →
           difficulty q ∉ DIFFICULTIES.
Proof.
  rewrite findSuitableQuestion_no_category. split.
  - destruct (rejects (CategoryByName categoryName)) eqn:Er; [done |].
    destruct (findCategory db categoryName) as [c |] eqn:Ec; [| done].
    intros Hnull. exists c.
    destruct (listed_or_not d) as [Hd | Hd].
    + rewrite (findSuitableQuestion_listed _ _ _ _ _ Er Ec Hd) in Hnull.
      pose proof (proj1 (first_available_Null _ _ _ _) Hnull) as Hall.
      split_and!; try done.
      * intros d' Hd'. by apply Hall, (search_order_listed d Hd).
      * intros q Hq Hc Hdq.
        destruct (Hall (difficulty q)) as [_ Hnone]; [by apply (search_order_listed d Hd) |].
        by apply (proj1 (findQuestion_None _ _ _) Hnone q).
    + rewrite (findSuitableQuestion_unlisted _ _ _ _ _ Er Ec Hd) in Hnull.
      destruct (rejects (QuestionByDifficulty (category_id c) d)); [done |].
      by destruct (findQuestion _ _ _).
  - intros (c & Er & Ec & Hd & Hr & Hall). rewrite Er, Ec.
    rewrite (findSuitableQuestion_listed _ _ _ _ _ Er Ec Hd).
    apply first_available_Null. intros d' Hd'%(search_order_listed d Hd).
    split; [by apply Hr |].
    apply findQuestion_None. intros q Hq Hc <-. by apply (Hall q).
Qed.

(** X17.  [findSuitableQuestion] prints an error and answers [undefined]
    in exactly three cases: no category has the requested name; the category
    has no question of exactly the requested difficulty and that difficulty
    is not a listed one; or the store rejects one of the calls made, in
    which case the error printed is the one the store gave and no later
    call is made.  An unlisted difficulty is never replaced by another
    one. *)
Theorem caught_means_unknown_category_or_difficulty
    (rejects : Query → option string) (db : Db) (categoryName d message : string) :
  findSuitableQuestion rejects db categoryName d = Caught message ↔
  rejects (CategoryByName categoryName) = Some message
  ∨ (rejects (CategoryByName categoryName) = None
     ∧ findCategory db categoryName = None
     ∧ message = ("Category '" +:+ categoryName +:+ "' not found.")%string)
  ∨ (∃ c, rejects (CategoryByName categoryName) = None
          ∧ findCategory db categoryName = Some c
          ∧ ((rejects (QuestionByDifficulty (category_id c) d) = None
              ∧ findQuestion db (category_id c) d = None
              ∧ (d ∉ DIFFICULTIES)
              ∧ message = ("Invalid difficulty level: " +:+ d)%string)
             ∨ ((d ∉ DIFFICULTIES)
                ∧ rejects (QuestionByDifficulty (category_id c) d) = Some message)
             ∨ (d ∈ DIFFICULTIES
                ∧ ∃ before d' after,
                    search_order d = before ++ d' :: after
                    ∧ rejects (QuestionByDifficulty (category_id c) d') = Some message
                    ∧ ∀ x, x ∈ before →
                           rejects (QuestionByDifficulty (category_id c) x) = None
                           ∧ findQuestion db (category_id c) x = None))).
Proof.
  rewrite findSuitableQuestion_no_category.
  destruct (rejects (CategoryByName categoryName)) as [error |] eqn:Er.
  { split.
    - intros [= ->]. by left.
    - intros [[= ->] | [(? & _) | (c & ? & _)]]; done. }
  destruct (findCategory db categoryName) as [c |] eqn:Ec.
  2:{ split.
      - intros [= <-]. right. by left.
      - intros [? | [(_ & _ & ->) | (c & _ & ? & _)]]; done. }
  destruct (listed_or_not d) as [Hd | Hd].
  - rewrite (findSuitableQuestion_listed _ _ _ _ _ Er Ec Hd), first_available_Caught.
    split.
    + intros Hsearch. right. right. exists c. split_and!; try done. right. right. done.
    + intros [? | [(_ & ? & _) | (c' & _ & [= <-] & [(_ & _ & ? & _) | [(? & _) | (_ & ?)]])]];
        solve [done | congruence].
  - rewrite (findSuitableQuestion_unlisted _ _ _ _ _ Er Ec Hd).
    destruct (rejects (QuestionByDifficulty (category_id c) d)) as [error |] eqn:Er'.
    + split.
      * intros [= ->]. right. right. exists c. split_and!; try done. right. left. done.
      * intros [? | [(_ & ? & _) | (c' & _ & [= <-] & [(? & _) | [(_ & ?) | (? & _)]])]];
          try done; congruence.
    + destruct (findQuestion db (category_id c) d) as [q |] eqn:E0.
      * split; [done |].
        intros [? | [(_ & ? & _) | (c' & _ & [= <-] & [(_ & ? & _) | [(_ & ?) | (? & _)]])]];
          solve [done | congruence].
      * split.
        -- intros [= <-]. right. right. exists c. split_and!; try done. by left.
        -- intros [? | [(_ & ? & _)
                       | (c' & _ & [= <-] & [(_ & _ & _ & ->) | [(_ & ?) | (? & _)]])]];
             solve [done | congruence].
Qed.

(** X18.  [getSuitableQuestion] produces at most one message; a produced
    message has the key of the incoming one and carries the id of the
    question [findSuitableQuestion] found for the category and difficulty of
    the body; without a non-empty body and key nothing is looked up; the
    call rejects only when the body cannot be parsed; and when it returns
    without producing, it has printed an error. *)
Theorem reply_is_keyed_by_match_id
    (rejects : Query → option string)
    (JSON_parse : string → option (string * string)) (send_rejects : option string)
    (db : Db) (message : KafkaMessage) :
  let effect := getSuitableQuestion rejects JSON_parse send_rejects db message in
  (length (produced effect) ≤ 1)%nat
  ∧ (∀ m, m ∈ produced effect →
          key message = Some (sent_key m)
          ∧ send_rejects = None
          ∧ ∃ body category d q,
              value message = Some body
              ∧ JSON_parse body = Some (category, d)
              ∧ findSuitableQuestion rejects db category d = Found q
              ∧ sent_question m = question_id q)
  ∧ (ending effect = Rejected ↔
     ∃ body matchId,
       truthy_text (value message) = Some body
       ∧ truthy_text (key message) = Some matchId
       ∧ JSON_parse body = None)
  ∧ (ending effect = Returned → produced effect = [] → errors effect ≠ [])
  ∧ (truthy_text (value message) = None ∨ truthy_text (key message) = None →
     effect = mkEffect [] [Plain "No message body or Match ID found."] Returned).
Proof.
  unfold getSuitableQuestion.
  destruct message as [[[| c k] |] [[| c' b] |]]; simpl;
    try (split_and!; try done; try lia;
         [intros m Hm; by apply elem_of_nil in Hm
         | split; [done | by intros (? & ? & ? & ? & ?)]]).
  destruct (JSON_parse (String c' b)) as [[category d] |] eqn:Ep; simpl.
  2:{ split_and!; try done; try lia.
      - intros m Hm. by apply elem_of_nil in Hm.
      - split; [| done]. intros _. by eexists _, _.
      - by intros [? | ?]. }
  destruct (findSuitableQuestion rejects db category d) as [q | | error] eqn:Ef; simpl;
    [destruct send_rejects as [error |]; simpl | |];
    split_and!; try done; try lia;
    try (intros m Hm; by apply elem_of_nil in Hm);
    try (split; [done | intros (? & ? & [= <-] & _ & ?); congruence]);
    try (by intros [? | ?]).
  intros m ->%list_elem_of_singleton. simpl. split_and!; try done.
  by exists (String c' b), category, d, q.
Qed.

End QuestionControllerFacts.

(** * Properties of the history controller *)

Module HistoryControllerFacts.
Import HistoryController.

(** ** The token *)

Lemma split_space_not_nil s : split_space s ≠ [].
Proof.
  induction s as [| c s IH]; simpl; [done |].
  destruct (Ascii.eqb c space); [done |]. by destruct (split_space s).
Qed.

Lemma split_space_no_space s : no_space s = true → split_space s = [s].
Proof.
  unfold no_space. induction s as [| c s IH]; simpl; [done |].
  intros [Hc Hs]%andb_true_iff. apply negb_true_iff in Hc. rewrite Hc.
  by rewrite (IH Hs).
Qed.

Lemma split_space_first a b :
  no_space a = true →
  split_space (a +:+ String space b) = a :: split_space b.
Proof.
  unfold no_space. induction a as [| c a IH]; simpl.
  - intros _. by rewrite ?Ascii.eqb_refl.
  - intros [Hc Ha]%andb_true_iff. apply negb_true_iff in Hc. rewrite Hc.
    by rewrite (IH Ha).
Qed.

Lemma append_empty (s : string) : s +:+ EmptyString = s.
Proof.
  induction s as [| c s IH]; [done |].
  change (String c (s +:+ EmptyString) = String c s). by rewrite IH.
Qed.

Lemma split_space_second_word scheme token rest :
  no_space scheme = true → no_space token = true →
  rest = EmptyString ∨ (∃ r, rest = String space r) →
  split_space (scheme +:+ String space (token +:+ rest)) !! 1%nat = Some token.
Proof.
  intros Hs Ht Hrest. rewrite (split_space_first _ _ Hs). simpl.
  destruct Hrest as [-> | [r ->]].
  - rewrite append_empty. by rewrite (split_space_no_space _ Ht).
  - by rewrite (split_space_first _ _ Ht).
Qed.

Lemma truthy_Some_string (s : string) : truthy (Some s) = true ↔ s ≠ EmptyString.
Proof. destruct s; simpl; split; done. Qed.

(** X19.  The token is the second space-separated word of the
    Authorization header and nothing else of the header is looked at: with
    any first word, even an empty one, and anything after a further space, a
    header whose second word verifies to an object with an [id] yields that
    id. *)
Theorem any_scheme_authenticates
    (jwt_verify : string → option JwtPayload) (scheme token rest : string) (id : field) :
  no_space scheme = true → no_space token = true → token ≠ EmptyString →
  rest = EmptyString ∨ (∃ r, rest = String space r) →
  jwt_verify token = Some (PayloadObject (Some id)) →
  extractUserIdFromToken jwt_verify (Some (scheme +:+ String space (token +:+ rest))) = id.
Proof.
  intros Hs Ht Hne Hrest Hv. unfold extractUserIdFromToken.
  rewrite (split_space_second_word _ _ _ Hs Ht Hrest).
  rewrite (proj2 (truthy_Some_string token) Hne), Hv.
  destruct (truthy _) eqn:E; [done |].
  exfalso. destruct scheme; discriminate E.
Qed.

Lemma any_scheme_authenticates_witness :
  extractUserIdFromToken sample_verify (Some "Basic t-ann trailing"%string)
  = Some "ann"%string.
Proof.
  apply (any_scheme_authenticates sample_verify "Basic" "t-ann" " trailing");
    [reflexivity | reflexivity | done | right; by eexists | reflexivity].
Defined.

(** X20.  A header that is missing, has no space, or has nothing or another
    space right after its first space yields no user, whatever [jwt.verify]
    would accept. *)
Theorem header_without_second_word_is_rejected
    (jwt_verify : string → option JwtPayload) (authorization : field) :
  authorization = None
  ∨ (∃ header, authorization = Some header ∧ no_space header = true)
  ∨ (∃ scheme rest,
       authorization = Some (scheme +:+ String space rest)
       ∧ no_space scheme = true
       ∧ (rest = EmptyString ∨ ∃ r, rest = String space r)) →
  extractUserIdFromToken jwt_verify authorization = None.
Proof.
  intros [-> | [(header & -> & Hn) | (scheme & rest & -> & Hs & Hrest)]];
    unfold extractUserIdFromToken; [done | |].
  - rewrite (split_space_no_space _ Hn). simpl. by destruct header.
  - rewrite (split_space_first _ _ Hs).
    destruct Hrest as [-> | [r ->]]; simpl; by repeat case_match.
Qed.

Lemma header_without_second_word_is_rejected_witness :
  extractUserIdFromToken sample_verify (Some "t-ann"%string) = None.
Proof.
  apply header_without_second_word_is_rejected.
  right. left. by exists "t-ann"%string.
Defined.

(** X21.  Without a user id from the token (none, or an empty one) each of
    the four writing handlers answers 401 "Invalid or missing token" and
    leaves the collection as it is, before any call on the collection. *)
Theorem handlers_require_a_user
    (jwt_verify : string → option JwtPayload)
    (save_rejects : HistoryEntry → option Thrown)
    (db_rejects : DbCall → option Thrown) (castObjectId : string → Cast)
    (db : list HistoryEntry) (authorization : field)
    (body : UpsertBody) (id : string) (ids : option (list string)) :
  truthy (extractUserIdFromToken jwt_verify authorization) = false →
  createOrUpdateUserHistoryEntry jwt_verify save_rejects db_rejects db authorization body
  = mkHandled (mkResponse 401 (JsonError "Invalid or missing token")) db
  ∧ deleteUserHistoryEntry jwt_verify db_rejects castObjectId db authorization id
    = mkHandled (mkResponse 401 (JsonError "Invalid or missing token")) db
  ∧ deleteUserHistoryEntries jwt_verify db_rejects castObjectId db authorization ids
    = mkHandled (mkResponse 401 (JsonError "Invalid or missing token")) db
  ∧ deleteAllUserHistoryEntries jwt_verify db_rejects db authorization
    = mkHandled (mkResponse 401 (JsonError "Invalid or missing token")) db.
Proof.
  intros Hno.
  unfold createOrUpdateUserHistoryEntry, deleteUserHistoryEntry,
    deleteUserHistoryEntries, deleteAllUserHistoryEntries.
  destruct (extractUserIdFromToken jwt_verify authorization) as [uid |]; [| done].
  by rewrite Hno.
Qed.

Lemma handlers_require_a_user_witness :
  deleteAllUserHistoryEntries sample_verify answers_all sample_history
    (Some "Bearer forged"%string)
  = mkHandled (mkResponse 401 (JsonError "Invalid or missing token")) sample_history.
Proof.
  apply (handlers_require_a_user sample_verify accept_all answers_all sample_cast
           sample_history (Some "Bearer forged"%string) sample_body "1" None).
  reflexivity.
Defined.

(** ** The collection *)

Lemma fresh_id_above (db : list HistoryEntry) (e : HistoryEntry) :
  e ∈ db → (entry_id e < fresh_id db)%nat.
Proof.
  unfold fresh_id. induction db as [| x db IH]; cbn -[Nat.max].
  - intros H. by apply elem_of_nil in H.
  - intros [-> | H]%elem_of_cons; [lia |]. apply IH in H. lia.
Qed.

Lemma owned_room_spec uid rid e :
  owned_room uid rid e = true ↔ userId e = uid ∧ roomId e = rid.
Proof. unfold owned_room. by rewrite andb_true_iff, !bool_decide_eq_true. Qed.

Lemma owned_id_spec uid id e :
  owned_id uid id e = true ↔ entry_id e = id ∧ userId e = uid.
Proof. unfold owned_id. by rewrite andb_true_iff, !bool_decide_eq_true. Qed.

Lemma update_first_keys {K} (key : HistoryEntry → K) P (x y : HistoryEntry) db :
  List.find P db = Some x → key y = key x →
  key <$> update_first P (λ _, y) db = key <$> db.
Proof.
  intros Hf Hk. induction db as [| e db IH]; simpl in *; [done |].
  destruct (P e); simplify_eq/=; [by rewrite Hk | by rewrite IH].
Qed.

Lemma find_update_first P (x y : HistoryEntry) db :
  List.find P db = Some x → P y = true →
  List.find P (update_first P (λ _, y) db) = Some y
  ∧ update_first P (λ _, y) (update_first P (λ _, y) db) = update_first P (λ _, y) db.
Proof.
  intros Hf Hy. induction db as [| e db IH]; simpl in *; [done |].
  destruct (P e) eqn:Ee; simpl.
  - by rewrite Hy.
  - rewrite Ee. destruct (IH Hf) as [-> ->]. done.
Qed.

Lemma find_append_new P (y : HistoryEntry) db :
  List.find P db = None → P y = true →
  List.find P (db ++ [y]) = Some y
  ∧ update_first P (λ _, y) (db ++ [y]) = db ++ [y].
Proof.
  intros Hf Hy. induction db as [| e db IH]; simpl in *.
  - by rewrite Hy.
  - destruct (P e) eqn:Ee; [done |]. destruct (IH Hf) as [-> ->]. done.
Qed.

(** X22.  [createOrUpdateUserHistoryEntry] keeps the collection well formed:
    if no two entries share an [_id] and no two entries share both user and
    room, the same holds afterwards, whatever the request and whatever
    rejects. *)
Theorem upsert_keeps_one_entry_per_user_and_room
    (jwt_verify : string → option JwtPayload)
    (save_rejects : HistoryEntry → option Thrown)
    (db_rejects : DbCall → option Thrown)
    (db : list HistoryEntry) (authorization : field) (body : UpsertBody) :
  NoDup (entry_id <$> db) → NoDup (room_key <$> db) →
  NoDup (entry_id <$>
           store (createOrUpdateUserHistoryEntry jwt_verify save_rejects db_rejects db
                    authorization body))
  ∧ NoDup (room_key <$>
             store (createOrUpdateUserHistoryEntry jwt_verify save_rejects db_rejects db
                      authorization body)).
Proof.
  intros Hid Hroom. unfold createOrUpdateUserHistoryEntry, unauthorized, failed.
  destruct (extractUserIdFromToken jwt_verify authorization) as [uid |]; [| done].
  destruct (truthy (Some uid)); [| done].
  destruct (body_roomId body) as [rid |]; [| done].
  destruct (truthy (Some rid)); [| done].
  destruct (db_rejects (FindOne uid rid)); [done |].
  destruct (List.find (owned_room uid rid) db) as [existing |] eqn:Ef.
  - destruct (save_rejects _); [done |]. simpl.
    rewrite (update_first_keys entry_id _ existing), (update_first_keys room_key _ existing);
      done.
  - destruct (save_rejects _); [done |]. simpl. rewrite !fmap_app. simpl. split.
    + apply NoDup_app. split_and!; [done | | apply NoDup_singleton].
      intros k (e & -> & He)%list_elem_of_fmap Hk%list_elem_of_singleton.
      apply fresh_id_above in He. simpl in Hk. lia.
    + apply NoDup_app. split_and!; [done | | apply NoDup_singleton].
      intros k (e & -> & He)%list_elem_of_fmap Hk%list_elem_of_singleton.
      apply list_elem_of_In in He. apply (find_none _ _ Ef) in He.
      unfold room_key in Hk. injection Hk as Hu Hr.
      by rewrite (proj2 (owned_room_spec uid rid e)) in He.
Qed.

Lemma upsert_keeps_one_entry_per_user_and_room_witness :
  NoDup (room_key <$>
           store (createOrUpdateUserHistoryEntry sample_verify accept_all answers_all
                    sample_history (Some "Bearer t-ann"%string) sample_body)).
Proof.
  apply (upsert_keeps_one_entry_per_user_and_room sample_verify accept_all answers_all
           sample_history (Some "Bearer t-ann"%string) sample_body).
  - apply (bool_decide_unpack _). by vm_compute.
  - apply (bool_decide_unpack _). by vm_compute.
Defined.

(** X23.  When [createOrUpdateUserHistoryEntry] answers 200 or 201, the
    entry it answers with belongs to the user of the token and the room of
    the request, carries the values of the request, and is the entry a
    look-up by that user and room finds afterwards; sending the same request
    again, to a collection that answers as before, answers 200 with the same
    entry and changes nothing. *)
Theorem upsert_then_lookup_and_repeat
    (jwt_verify : string → option JwtPayload)
    (save_rejects : HistoryEntry → option Thrown)
    (db_rejects : DbCall → option Thrown)
    (db : list HistoryEntry) (authorization : field) (body : UpsertBody) :
  let handled :=
    createOrUpdateUserHistoryEntry jwt_verify save_rejects db_rejects db authorization body in
  status (response handled) = 200%nat ∨ status (response handled) = 201%nat →
  ∃ uid rid entry,
    extractUserIdFromToken jwt_verify authorization = Some uid
    ∧ body_roomId body = Some rid
    ∧ db_rejects (FindOne uid rid) = None
    ∧ save_rejects entry = None
    ∧ json (response handled) = JsonEntry entry
    ∧ userId entry = uid ∧ roomId entry = rid
    ∧ question entry = body_questionId body
    ∧ attemptStartedAt entry = body_attemptStartedAt body
    ∧ attemptCompletedAt entry = body_attemptCompletedAt body
    ∧ collaboratorId entry = body_collaboratorId body
    ∧ attemptCode entry = body_attemptCode body
    ∧ List.find (owned_room uid rid) (store handled) = Some entry
    ∧ createOrUpdateUserHistoryEntry jwt_verify save_rejects db_rejects (store handled)
        authorization body
      = mkHandled (mkResponse 200 (JsonEntry entry)) (store handled).
Proof.
  unfold createOrUpdateUserHistoryEntry, unauthorized, failed.
  destruct (extractUserIdFromToken jwt_verify authorization) as [uid |];
    [| simpl; intros [? | ?]; done].
  destruct (truthy (Some uid)) eqn:Eu; [| simpl; intros [? | ?]; done].
  destruct (body_roomId body) as [rid |]; [| simpl; intros [? | ?]; done].
  destruct (truthy (Some rid)) eqn:Er; [| simpl; intros [? | ?]; done].
  destruct (db_rejects (FindOne uid rid)) eqn:Ed; [simpl; intros [? | ?]; done |].
  destruct (List.find (owned_room uid rid) db) as [existing |] eqn:Ef.
  - destruct (save_rejects _) eqn:Es; [simpl; intros [? | ?]; done |].
    simpl. intros _.
    pose proof (find_some _ _ Ef) as [_ [Hu Hr]%owned_room_spec].
    eexists uid, rid, _. split_and!; try done.
    + eapply find_update_first; [exact Ef |]. by apply owned_room_spec.
    + match goal with
      | |- context [update_first _ (λ _, ?y) db] =>
          destruct (find_update_first (owned_room uid rid) existing y db Ef) as [E1 E2];
          [by apply owned_room_spec |]
      end.
      rewrite E1. simpl. rewrite Es. simpl. by rewrite E2.
  - destruct (save_rejects _) eqn:Es; [simpl; intros [? | ?]; done |].
    simpl. intros _.
    eexists uid, rid, _. split_and!; try done.
    + eapply find_append_new; [exact Ef |]. by apply owned_room_spec.
    + match goal with
      | |- context [db ++ [?y]] =>
          destruct (find_append_new (owned_room uid rid) y db Ef) as [E1 E2];
          [by apply owned_room_spec |]
      end.
      rewrite E1. simpl. rewrite Es. simpl. by rewrite E2.
Qed.

Lemma upsert_then_lookup_and_repeat_witness :
  ∃ entry,
    json (response (createOrUpdateUserHistoryEntry sample_verify accept_all answers_all
                      sample_history (Some "Bearer t-ann"%string) sample_body))
    = JsonEntry entry
    ∧ question entry = Some "q2"%string.
Proof.
  destruct (upsert_then_lookup_and_repeat sample_verify accept_all answers_all sample_history
              (Some "Bearer t-ann"%string) sample_body)
    as (uid & rid & entry & _ & _ & _ & _ & Hj & _ & _ & Hq & _).
  - left. reflexivity.
  - exists entry. split; [exact Hj | exact Hq].
Defined.

(** ** Other users' entries *)

Lemma filter_update_first (other : string) P (y : HistoryEntry) db :
  (∀ e, P e = true → owned other e = false) → owned other y = false →
  List.filter (owned other) (update_first P (λ _, y) db) = List.filter (owned other) db.
Proof.
  intros HP Hy. induction db as [| e db IH]; simpl; [done |].
  destruct (P e) eqn:Ee; simpl.
  - by rewrite Hy, (HP e Ee).
  - by rewrite IH.
Qed.

Lemma filter_remove_first (other : string) P db :
  (∀ e, P e = true → owned other e = false) →
  List.filter (owned other) (remove_first P db) = List.filter (owned other) db.
Proof.
  intros HP. induction db as [| e db IH]; simpl; [done |].
  destruct (P e) eqn:Ee; simpl.
  - by rewrite (HP e Ee).
  - by rewrite IH.
Qed.

Lemma filter_filter_out (other : string) (P : HistoryEntry → bool) db :
  (∀ e, P e = true → owned other e = false) →
  List.filter (owned other) (List.filter (λ e, negb (P e)) db)
  = List.filter (owned other) db.
Proof.
  intros HP. induction db as [| e db IH]; simpl; [done |].
  destruct (P e) eqn:Ee; simpl.
  - by rewrite (HP e Ee).
  - by rewrite IH.
Qed.

Lemma owned_other (uid other : string) (e : HistoryEntry) :
  uid ≠ other → userId e = uid → owned other e = false.
Proof. intros Hne <-. unfold owned. by apply bool_decide_eq_false. Qed.

(** X24.  No handler touches the entries of a user other than the one the
    token names: whatever the request and whatever rejects, the entries of
    any other user are the same, in the same order, before and after. *)
Theorem handlers_leave_other_users_entries
    (jwt_verify : string → option JwtPayload)
    (save_rejects : HistoryEntry → option Thrown)
    (db_rejects : DbCall → option Thrown) (castObjectId : string → Cast)
    (db : list HistoryEntry) (authorization : field)
    (body : UpsertBody) (id : string) (ids : option (list string)) (other : string) :
  extractUserIdFromToken jwt_verify authorization ≠ Some other →
  List.filter (owned other)
    (store (createOrUpdateUserHistoryEntry jwt_verify save_rejects db_rejects db
              authorization body))
  = List.filter (owned other) db
  ∧ List.filter (owned other)
      (store (deleteUserHistoryEntry jwt_verify db_rejects castObjectId db authorization id))
    = List.filter (owned other) db
  ∧ List.filter (owned other)
      (store (deleteUserHistoryEntries jwt_verify db_rejects castObjectId db authorization ids))
    = List.filter (owned other) db
  ∧ List.filter (owned other)
      (store (deleteAllUserHistoryEntries jwt_verify db_rejects db authorization))
    = List.filter (owned other) db.
Proof.
  intros Hother.
  unfold createOrUpdateUserHistoryEntry, deleteUserHistoryEntry,
    deleteUserHistoryEntries, deleteAllUserHistoryEntries, unauthorized, failed.
  destruct (extractUserIdFromToken jwt_verify authorization) as [uid |]; [| done].
  assert (uid ≠ other) as Hne by congruence.
  destruct (truthy (Some uid)); [| done].
  split_and!.
  - destruct (body_roomId body) as [rid |]; [| done].
    destruct (truthy (Some rid)); [| done].
    destruct (db_rejects (FindOne uid rid)); [done |].
    destruct (List.find (owned_room uid rid) db) as [existing |] eqn:Ef.
    + destruct (save_rejects _); [done |]. simpl.
      pose proof (find_some _ _ Ef) as [_ [Hu Hr]%owned_room_spec].
      apply filter_update_first.
      * intros e [He _]%owned_room_spec. by apply (owned_other uid).
      * by apply (owned_other uid).
    + destruct (save_rejects _); [done |]. simpl.
      rewrite List.filter_app. simpl.
      rewrite (owned_other uid other) by done. by rewrite app_nil_r.
  - destruct (castObjectId id) as [id' | error]; [| done].
    destruct (db_rejects (FindOneAndDelete id' uid)); [done |].
    destruct (List.find (owned_id uid id') db); [| done]. simpl.
    apply filter_remove_first.
    intros e [_ He]%owned_id_spec. by apply (owned_other uid).
  - destruct ids as [ids' |]; [| done].
    destruct (cast_all castObjectId ids') as [error | ids'']; [done |].
    destruct (db_rejects (DeleteManyByIds ids'' uid)); [done |]. simpl.
    apply filter_filter_out. unfold owned_ids.
    intros e [_ He%bool_decide_eq_true]%andb_true_iff. by apply (owned_other uid).
  - destruct (db_rejects (DeleteManyByUser uid)); [done |].
    simpl. apply filter_filter_out. unfold owned at 1.
    intros e He%bool_decide_eq_true. by apply (owned_other uid).
Qed.

Lemma handlers_leave_other_users_entries_witness :
  List.filter (owned "bob")
    (store (deleteAllUserHistoryEntries sample_verify answers_all sample_history
              (Some "Bearer t-ann"%string)))
  = List.filter (owned "bob") sample_history.
Proof.
  apply (handlers_leave_other_users_entries sample_verify accept_all answers_all sample_cast
           sample_history (Some "Bearer t-ann"%string) sample_body "1" None "bob").
  by vm_compute.
Defined.

Lemma remove_first_split P (x : HistoryEntry) db :
  List.find P db = Some x →
  ∃ before after,
    db = before ++ x :: after
    ∧ remove_first P db = before ++ after
    ∧ Forall (λ e, P e = false) before.
Proof.
  induction db as [| e db IH]; simpl; [done |].
  destruct (P e) eqn:Ee.
  - intros [= ->]. exists [], db. by split_and!.
  - intros (before & after & -> & -> & Hb)%IH.
    exists (e :: before), after. split_and!; [done | done | by constructor].
Qed.

(** X25.  For an authenticated user [deleteUserHistoryEntry] answers 500,
    404 or 200.  It answers 500 exactly when the id of the URL cannot be cast
    or the collection rejects the call, and 404 exactly when the call is
    answered and the collection has no entry with that id that belongs to the
    user, an entry of somebody else with that id not counting; in both cases
    the collection is left as it is.  Otherwise it answers 200 and removes
    one entry, the first with that id that belongs to the user. *)
Theorem delete_needs_own_entry
    (jwt_verify : string → option JwtPayload)
    (db_rejects : DbCall → option Thrown) (castObjectId : string → Cast)
    (db : list HistoryEntry) (authorization : field) (id uid : string) :
  extractUserIdFromToken jwt_verify authorization = Some uid →
  uid ≠ EmptyString →
  let handled :=
    deleteUserHistoryEntry jwt_verify db_rejects castObjectId db authorization id in
  (status (response handled) = 500%nat ∨ status (response handled) = 404%nat
   ∨ status (response handled) = 200%nat)
  ∧ (status (response handled) = 500%nat ↔
     (∃ error, castObjectId id = CastError error)
     ∨ (∃ id' error, castObjectId id = ObjectId id'
                     ∧ db_rejects (FindOneAndDelete id' uid) = Some error))
  ∧ (status (response handled) = 404%nat ↔
     ∃ id', castObjectId id = ObjectId id'
            ∧ db_rejects (FindOneAndDelete id' uid) = None
            ∧ ∀ e, e ∈ db → ¬ (entry_id e = id' ∧ userId e = uid))
  ∧ (status (response handled) ≠ 200%nat → store handled = db)
  ∧ (status (response handled) = 200%nat →
     ∃ id' before e after,
       castObjectId id = ObjectId id'
       ∧ db_rejects (FindOneAndDelete id' uid) = None
       ∧ db = before ++ e :: after
       ∧ store handled = before ++ after
       ∧ entry_id e = id' ∧ userId e = uid
       ∧ ∀ e', e' ∈ before → ¬ (entry_id e' = id' ∧ userId e' = uid)).
Proof.
  intros Hauth Hne. unfold deleteUserHistoryEntry, failed. rewrite Hauth.
  rewrite (proj2 (truthy_Some_string uid) Hne).
  destruct (castObjectId id) as [id' | error] eqn:Ecast; simpl.
  2:{ split_and!; [by left | | | done | done].
      - split; [intros _; left; by exists error | done].
      - split; [done | by intros (? & ? & _)]. }
  destruct (db_rejects (FindOneAndDelete id' uid)) as [error |] eqn:Ecall; simpl.
  { split_and!; [by left | | | done | done].
    - split; [intros _; right; by exists id', error | done].
    - split; [done |]. intros (? & [= <-] & ? & _). congruence. }
  destruct (List.find (owned_id uid id') db) as [x |] eqn:Ef; simpl.
  - pose proof (find_some _ _ Ef) as [Hin [Hid Hu]%owned_id_spec].
    split_and!; [by right; right | | | done |].
    + split; [done |]. intros [(? & ?) | (? & ? & [= <-] & ?)]; congruence.
    + split; [done |]. intros (? & [= <-] & _ & Hall).
      destruct (Hall x); [by apply list_elem_of_In | done].
    + intros _. apply remove_first_split in Ef as (before & after & -> & -> & Hb).
      exists id', before, x, after. split_and!; try done.
      intros e' He' He. rewrite Forall_forall in Hb. apply Hb in He'.
      by rewrite (proj2 (owned_id_spec uid id' e')) in He'.
  - split_and!; [by right; left | | | done | done].
    + split; [done |]. intros [(? & ?) | (? & ? & [= <-] & ?)]; congruence.
    + split; [| done]. intros _. exists id'. split_and!; try done.
      intros e He [Hid Hu].
      apply list_elem_of_In in He. apply (find_none _ _ Ef) in He.
      by rewrite (proj2 (owned_id_spec uid id' e)) in He.
Qed.

Lemma delete_needs_own_entry_witness :
  status (response (deleteUserHistoryEntry sample_verify answers_all sample_cast
                      sample_history (Some "Bearer t-ann"%string) "2")) = 404%nat
  ∧ status (response (deleteUserHistoryEntry sample_verify answers_all sample_cast
                        sample_history (Some "Bearer t-ann"%string) "two")) = 500%nat.
Proof.
  split.
  - destruct (delete_needs_own_entry sample_verify answers_all sample_cast sample_history
                (Some "Bearer t-ann"%string) "2" "ann") as (_ & _ & Hiff & _);
      [reflexivity | done |].
    apply Hiff. exists 2%nat. split_and!; [reflexivity | reflexivity |].
    intros e He [Hid Hu].
    apply elem_of_cons in He as [-> | He]; [discriminate Hid |].
    apply elem_of_cons in He as [-> | He]; [discriminate Hu |].
    by apply elem_of_nil in He.
  - reflexivity.
Defined.

End HistoryControllerFacts.
